(** * FORGE.ObjectRenderer: a shallow embedding of [src/render/ObjectRenderer.js]

    The renderer keeps a list of hotspot objects, a three.js scene holding
    their meshes, and a two-field cache (last viewport, last view type) that
    gates material replacement.  JavaScript objects that the code mutates
    through references (meshes, three.js materials, the scene) live in an
    explicit heap; calls into collaborators (the renderer facility, the WebGL
    renderer, the view, the picking manager) are recorded in a call log. *)

From Stdlib Require Import ZArith QArith.
From stdpp Require Import base list strings.

(** ** References into the heap *)

Definition MeshRef := nat.
Definition MatRef := nat.
Definition SceneRef := nat.
Definition UniformsRef := nat.
Definition Camera := nat.
Definition RenderTarget := nat.

(** ** three.js objects, as far as the renderer touches them *)

Module THREE.

Inductive Side := FrontSide | BackSide | DoubleSide.

Module Material.
    (** [program = None] is JavaScript's [undefined]: the material has not
        been compiled to a shader program yet. *)
Record t := mk {
      program : option nat;
      side : Side;
      transparent : bool;
      opacity : Q;
      uniforms : UniformsRef
    }.
Definition set_side (v : Side) (m : t) : t :=
      mk (program m) v (transparent m) (opacity m) (uniforms m).
Definition set_transparent (v : bool) (m : t) : t :=
      mk (program m) (side m) v (opacity m) (uniforms m).
Definition set_opacity (v : Q) (m : t) : t :=
      mk (program m) (side m) (transparent m) v (uniforms m).
End Material.

Module Mesh.
    (** [pickingColor] is [mesh.userData.pickingColor]; [None] before it is
        assigned.  [material] is a reference: several meshes may share one
        material object.  [parent] is the container the mesh is a child of,
        [None] for [null]. *)
Record t := mk {
      id : Z;
      pickingColor : option Z;
      frustumCulled : bool;
      material : MatRef;
      parent : option SceneRef
    }.
Definition set_pickingColor (v : Z) (m : t) : t :=
      mk (id m) (Some v) (frustumCulled m) (material m) (parent m).
Definition set_frustumCulled (v : bool) (m : t) : t :=
      mk (id m) (pickingColor m) v (material m) (parent m).
Definition set_material (v : MatRef) (m : t) : t :=
      mk (id m) (pickingColor m) (frustumCulled m) v (parent m).
Definition set_parent (v : option SceneRef) (m : t) : t :=
      mk (id m) (pickingColor m) (frustumCulled m) (material m) v.
End Mesh.

Module Scene.
    (** A container of the scene graph (a scene, or any object that has
        children).  [children = None] is [null] (written by [destroy]). *)
Record t := mk { children : option (list MeshRef) }.
End Scene.

End THREE.

(** ** The heap *)

Record Heap := mkHeap {
  meshes : MeshRef -> THREE.Mesh.t;
  materials : MatRef -> THREE.Material.t;
  scenes : SceneRef -> THREE.Scene.t;
  next_scene : SceneRef
}.

Definition upd {A : Type} (f : nat -> A) (r : nat) (v : A) : nat -> A :=
  fun r' => if decide (r' = r) then v else f r'.

Definition update_mesh (r : MeshRef) (f : THREE.Mesh.t -> THREE.Mesh.t) (h : Heap) : Heap :=
  mkHeap (upd (meshes h) r (f (meshes h r))) (materials h) (scenes h) (next_scene h).

Definition update_material (r : MatRef) (f : THREE.Material.t -> THREE.Material.t) (h : Heap) : Heap :=
  mkHeap (meshes h) (upd (materials h) r (f (materials h r))) (scenes h) (next_scene h).

Definition update_scene (r : SceneRef) (f : THREE.Scene.t -> THREE.Scene.t) (h : Heap) : Heap :=
  mkHeap (meshes h) (materials h) (upd (scenes h) r (f (scenes h r))) (next_scene h).

(** [new THREE.Scene()]: a fresh scene with no children. *)
Definition new_Scene (h : Heap) : SceneRef * Heap :=
  (next_scene h,
   mkHeap (meshes h) (materials h)
          (upd (scenes h) (next_scene h) (THREE.Scene.mk (Some [])))
          (S (next_scene h))).

(** [mesh.material], dereferenced. *)
Definition mesh_material (h : Heap) (mesh : MeshRef) : THREE.Material.t :=
  materials h (THREE.Mesh.material (meshes h mesh)).

(** [object.mesh.id], for a mesh reference. *)
Definition mesh_id (h : Heap) (mesh : MeshRef) : Z := THREE.Mesh.id (meshes h mesh).

(** ** FORGE data *)

Module FORGE.

  (** [FORGE.ViewType]: the [UNDEFINED] sentinel, the rectilinear projection
      and the other projection kinds. *)
Inductive ViewType := UNDEFINED | RECTILINEAR | OtherProjection (name : string).

#[global] Instance ViewType_eq_dec : EqDecision ViewType.
  Proof. solve_decision. Defined.

Module View.
Record t := mk { type : ViewType }.
End View.

Module Viewport.
    (** [ident] is the JavaScript object identity (what [===] compares),
        [uid] the [uid] property, [view_current] is [viewport.view.current]
        and [camera_main] is [viewport.camera.main]. *)
Record t := mk {
      ident : nat;
      uid : string;
      view_current : View.t;
      camera_main : Camera
    }.
End Viewport.

Module HotspotMaterial.
Inductive types := GRAPHICS | Textured (name : string).

#[global] Instance types_eq_dec : EqDecision types.
    Proof. solve_decision. Defined.

    (** [threeSide] is the value returned by [getThreeSide()]. *)
Record t := mk {
      type : types;
      transparent : bool;
      opacity : Q;
      threeSide : THREE.Side
    }.
End HotspotMaterial.

Module Object3D.
Record t := mk {
      mesh : MeshRef;
      material : HotspotMaterial.t;
      ready : bool;
      interactive : bool
    }.
End Object3D.

Module Viewer.
    (** [getMaterialForView] is [viewer.renderer.getMaterialForView] and
        [activeViewport] is [viewer.story.scene.activeViewport] ([None] for
        [null]). *)
Record t := mk {
      getMaterialForView : ViewType -> string -> bool -> MatRef;
      activeViewport : option Viewport.t
    }.
End Viewer.

Module Picking.
(** The manager is built from [this._viewer], which is nullable. *)
Record t := mk { viewer : option Viewer.t }.
End Picking.

End FORGE.

Import FORGE.

(** ** The renderer instance *)

Module ObjectRenderer.
(** Every field is nullable: [destroy] writes [null] into them. *)
Record t := mk {
  _viewer : option Viewer.t;
  _scene : option SceneRef;
  _objects : option (list Object3D.t);
  _lastViewport : option Viewport.t;
  _lastViewType : ViewType;
  _picking : option Picking.t
}.
Definition set_scene (v : option SceneRef) (r : t) : t :=
  mk (_viewer r) v (_objects r) (_lastViewport r) (_lastViewType r) (_picking r).
Definition set_objects (v : option (list Object3D.t)) (r : t) : t :=
  mk (_viewer r) (_scene r) v (_lastViewport r) (_lastViewType r) (_picking r).
Definition set_lastViewport (v : option Viewport.t) (r : t) : t :=
  mk (_viewer r) (_scene r) (_objects r) v (_lastViewType r) (_picking r).
Definition set_lastViewType (v : ViewType) (r : t) : t :=
  mk (_viewer r) (_scene r) (_objects r) (_lastViewport r) v (_picking r).
Definition set_picking (v : option Picking.t) (r : t) : t :=
  mk (_viewer r) (_scene r) (_objects r) (_lastViewport r) (_lastViewType r) v.
Definition set_viewer (v : option Viewer.t) (r : t) : t :=
  mk v (_scene r) (_objects r) (_lastViewport r) (_lastViewType r) (_picking r).
End ObjectRenderer.

Import ObjectRenderer.

(** ** Calls into collaborators

    [j] is the loop counter of [render]: the call is issued while
    [this._objects[j]] is reconciled.  Only the call is recorded: what the
    collaborator does on its side (the WebGL renderer attaching a program to
    the materials it compiles, say) is not described, and the properties of
    one [render] hold for whatever world it starts in. *)
Inductive Call :=
| NewPicking
| GetMaterialForView (j : nat) (viewType : ViewType) (shaderType : string) (transparent : bool)
| UpdateUniforms (j : nat) (view : View.t) (uniforms : UniformsRef)
| WebGLCompile (scene : SceneRef) (camera : Camera)
| WebGLRender (scene : SceneRef) (camera : Camera) (target : RenderTarget)
| PickingRender (viewport : Viewport.t)
| PickingDestroy
| BaseObjectDestroy.

(** ** Methods as state transformers

    A method runs on a world (the instance and the heap) and either returns
    or throws; both outcomes carry the world as it was left and the calls
    issued so far. *)

Record World := mkWorld { this : ObjectRenderer.t; heap : Heap }.

(** The only exception the code can raise by itself: a property access on
    [null]; [what] names the expression that was [null]. *)
Inductive Error := TypeError (what : string).

Inductive Outcome (A : Type) :=
| Returns (a : A) (w : World) (log : list Call)
| Throws (e : Error) (w : World) (log : list Call).
Arguments Returns {A} a w log.
Arguments Throws {A} e w log.

Definition M (A : Type) : Type := World -> Outcome A.

#[global] Instance M_ret : MRet M := fun A a w => Returns a w [].

#[global] Instance M_bind : MBind M := fun A B f m w =>
  match m w with
  | Returns a w1 l1 =>
      match f a w1 with
      | Returns b w2 l2 => Returns b w2 (l1 ++ l2)
      | Throws e w2 l2 => Throws e w2 (l1 ++ l2)
      end
  | Throws e w1 l1 => Throws e w1 l1
  end.

Definition get_this : M ObjectRenderer.t := fun w => Returns (this w) w [].
Definition get_heap : M Heap := fun w => Returns (heap w) w [].
Definition modify_this (f : ObjectRenderer.t -> ObjectRenderer.t) : M unit :=
  fun w => Returns tt (mkWorld (f (this w)) (heap w)) [].
Definition modify_heap (f : Heap -> Heap) : M unit :=
  fun w => Returns tt (mkWorld (this w) (f (heap w))) [].
Definition call (c : Call) : M unit := fun w => Returns tt w [c].
Definition throw {A : Type} (e : Error) : M A := fun w => Throws e w [].

(** Dereferencing something that may be [null]. *)
Definition nonnull {A : Type} (what : string) (o : option A) : M A :=
  match o with
  | Some a => mret a
  | None => throw (TypeError what)
  end.

(** *** three.js [remove] and [add]

    The events the two methods dispatch ([removed], [added]) have no
    listener in this code and are left out. *)

(** [children.splice(children.indexOf(object), 1)], for an object that is
    in the array: the first occurrence goes. *)
Fixpoint splice_first (object : MeshRef) (children : list MeshRef) : list MeshRef :=
  match children with
  | [] => []
  | child :: rest =>
      if decide (child = object) then rest else child :: splice_first object rest
  end.

(** [container.remove(object)]: reading [this.children.indexOf] throws when
    [children] is [null]; an object that is not a child is left alone. *)
Definition Object3D_remove (container : SceneRef) (object : MeshRef) : M unit :=
  h ← get_heap;
  children ← nonnull "this.children" (THREE.Scene.children (scenes h container));
  if decide (object ∈ (children : list MeshRef)) then
    modify_heap (update_mesh object (THREE.Mesh.set_parent None));;
    modify_heap (update_scene container
                   (fun _ => THREE.Scene.mk (Some (splice_first object children))))
  else mret tt.

(** [container.add(object)]: the object is first removed from the parent it
    has, then it gets the container as parent and is pushed onto the
    container's children. *)
Definition Object3D_add (container : SceneRef) (object : MeshRef) : M unit :=
  h ← get_heap;
  match THREE.Mesh.parent (meshes h object) with
  | Some parent => Object3D_remove parent object
  | None => mret tt
  end;;
  modify_heap (update_mesh object (THREE.Mesh.set_parent (Some container)));;
  h ← get_heap;
  children ← nonnull "this.children" (THREE.Scene.children (scenes h container));
  modify_heap (update_scene container
                 (fun _ => THREE.Scene.mk (Some ((children : list MeshRef) ++ [object])))).

(** [for (var j = start; j < objects.length; j++) acc = body(j, objects[j], acc)] *)
Fixpoint for_objects {A : Type} (body : nat -> Object3D.t -> A -> M A)
    (j : nat) (objects : list Object3D.t) (acc : A) : M A :=
  match objects with
  | [] => mret acc
  | object :: rest => acc' ← body j object acc; for_objects body (S j) rest acc'
  end.

(** [object.ready === true && object.interactive === true] *)
Definition is_pickable (object : Object3D.t) : Prop :=
  Object3D.ready object = true ∧ Object3D.interactive object = true.

#[global] Instance is_pickable_dec object : Decision (is_pickable object).
Proof. unfold is_pickable. apply _. Defined.

(** [material.type === FORGE.HotspotMaterial.types.GRAPHICS ? "color" : "map"] *)
Definition shaderType_of (material : HotspotMaterial.t) : string :=
  if decide (HotspotMaterial.type material = HotspotMaterial.GRAPHICS)
  then "color"%string else "map"%string.

(** The test that guards the renewal of [mesh.material]: the five operands
    of [||], in the order of the source. *)
Definition renew_needed (this : ObjectRenderer.t) (viewport : Viewport.t)
    (h : Heap) (object : Object3D.t) : bool :=
  match _lastViewport this with
  | None => true
  | Some last => bool_decide (Viewport.uid last ≠ Viewport.uid viewport)
  end
  || bool_decide (_lastViewType this = UNDEFINED)
  || bool_decide (_lastViewType this ≠ View.type (Viewport.view_current viewport))
  || bool_decide (THREE.Material.transparent (mesh_material h (Object3D.mesh object))
                  ≠ HotspotMaterial.transparent (Object3D.material object)).

Section Renderer.

(** [FORGE.Picking.colorFromObjectID] belongs to the picking manager, whose
    source is not part of [ObjectRenderer.js]: a parameter. *)
Variable colorFromObjectID : Z -> Z.

(** *** [_boot] *)

Definition _boot_object (i : nat) (object : Object3D.t) (_ : unit) : M unit :=
  let mesh := Object3D.mesh object in
  modify_heap (fun h =>
    update_mesh mesh
      (THREE.Mesh.set_pickingColor (colorFromObjectID (mesh_id h mesh))) h);;
  this ← get_this;
  scene ← nonnull "this._scene" (_scene this);
  Object3D_add scene mesh.

Definition _boot : M unit :=
  h ← get_heap;
  modify_heap (fun h => snd (new_Scene h));;
  modify_this (set_scene (Some (fst (new_Scene h))));;
  this ← get_this;
  objects ← nonnull "this._objects" (_objects this);
  for_objects _boot_object 0 objects tt;;
  call NewPicking;;
  modify_this (set_picking (Some (Picking.mk (_viewer this)))).

(** The constructor: field initialisers, then [_boot]. *)
Definition new_ObjectRenderer (viewer : Viewer.t) (objects : list Object3D.t)
    (h : Heap) : Outcome unit :=
  _boot (mkWorld (mk (Some viewer) None (Some objects) None UNDEFINED None) h).

End Renderer.

(** *** [_getPickableObjects] and [getPickableObjectWithId] *)

Definition _getPickableObjects : M (list Object3D.t) :=
  this ← get_this;
  objects ← nonnull "this._objects" (_objects this);
  mret (filter is_pickable objects).

(** [Array.prototype.find]: the first element satisfying the callback, or
    [undefined] ([None]). *)
Definition getPickableObjectWithId (id : Z) : M (option Object3D.t) :=
  objects ← _getPickableObjects;
  h ← get_heap;
  mret (snd <$> list_find (fun object => mesh_id h (Object3D.mesh object) = id) objects).

(** *** [render] *)

(** [activeViewport === viewport]: identity of objects, [null] being
    identical to no viewport. *)
Definition is_same_viewport (active : option Viewport.t) (viewport : Viewport.t) : bool :=
  match active with
  | Some a => bool_decide (Viewport.ident a = Viewport.ident viewport)
  | None => false
  end.

Definition render_object (viewport : Viewport.t) (j : nat) (object : Object3D.t)
    (compilationNeeded : bool) : M bool :=
  let view := Viewport.view_current viewport in
  let material := Object3D.material object in
  let mesh := Object3D.mesh object in
  this ← get_this;
  h ← get_heap;
  let compilationNeeded :=
    match THREE.Material.program (mesh_material h mesh) with
    | None => true
    | Some _ => compilationNeeded
    end in
  (if renew_needed this viewport h object then
     modify_heap (update_mesh mesh
       (THREE.Mesh.set_frustumCulled (bool_decide (View.type view = RECTILINEAR))));;
     let shaderType := shaderType_of material in
     viewer ← nonnull "this._viewer" (_viewer this);
     call (GetMaterialForView j (View.type view) shaderType (HotspotMaterial.transparent material));;
     modify_heap (update_mesh mesh
       (THREE.Mesh.set_material
          (Viewer.getMaterialForView viewer (View.type view) shaderType
             (HotspotMaterial.transparent material))))
   else mret tt);;
  modify_heap (fun h => update_material (THREE.Mesh.material (meshes h mesh))
                 (THREE.Material.set_side (HotspotMaterial.threeSide material)) h);;
  modify_heap (fun h => update_material (THREE.Mesh.material (meshes h mesh))
                 (THREE.Material.set_transparent (HotspotMaterial.transparent material)) h);;
  modify_heap (fun h => update_material (THREE.Mesh.material (meshes h mesh))
                 (THREE.Material.set_opacity (HotspotMaterial.opacity material)) h);;
  h ← get_heap;
  call (UpdateUniforms j view (THREE.Material.uniforms (mesh_material h mesh)));;
  mret compilationNeeded.

Definition render (viewport : Viewport.t) (target : RenderTarget) : M unit :=
  this ← get_this;
  scene ← nonnull "this._scene" (_scene this);
  h ← get_heap;
  children ← nonnull "this._scene.children" (THREE.Scene.children (scenes h scene));
  if decide (length children = 0) then mret tt
  else
    let view := Viewport.view_current viewport in
    let camera := Viewport.camera_main viewport in
    objects ← nonnull "this._objects" (_objects this);
    compilationNeeded ← for_objects (render_object viewport) 0 objects false;
    (if (compilationNeeded : bool) then
       nonnull "this._viewer" (_viewer this);;
       call (WebGLCompile scene camera)
     else mret tt);;
    viewer ← nonnull "this._viewer" (_viewer this);
    call (WebGLRender scene camera target);;
    pickable ← _getPickableObjects;
    (if is_same_viewport (Viewer.activeViewport viewer) viewport
        && bool_decide (0 < length (pickable : list Object3D.t))
     then
       nonnull "this._picking" (_picking this);;
       call (PickingRender viewport)
     else mret tt);;
    modify_this (set_lastViewport (Some viewport));;
    modify_this (set_lastViewType (View.type view)).

(** *** [destroy] *)

Definition destroy : M unit :=
  this ← get_this;
  (match _picking this with
   | Some _ => call PickingDestroy;; modify_this (set_picking None)
   | None => mret tt
   end);;
  modify_this (set_objects None);;
  scene ← nonnull "this._scene" (_scene this);
  modify_heap (update_scene scene (fun _ => THREE.Scene.mk None));;
  modify_this (set_scene None);;
  modify_this (set_lastViewport None);;
  modify_this (set_viewer None);;
  call BaseObjectDestroy.

(** *** Accessors *)

Definition all : M (option (list Object3D.t)) :=
  this ← get_this; mret (_objects this).

Definition scene : M (option SceneRef) :=
  this ← get_this; mret (_scene this).

(** ** Notions used to state the properties *)

Definition world_of {A : Type} (o : Outcome A) : World :=
  match o with
  | Returns _ w _ => w
  | Throws _ w _ => w
  end.

Definition log_of {A : Type} (o : Outcome A) : list Call :=
  match o with
  | Returns _ _ log => log
  | Throws _ _ log => log
  end.

(** The heap as the loop of [render] finds it when it reaches index [k]:
    the first [k] objects have been reconciled. *)
Definition heap_at (viewport : Viewport.t) (objects : list Object3D.t) (k : nat)
    (w : World) : Heap :=
  heap (world_of (for_objects (render_object viewport) 0 (take k objects) false w)).

(** Closed forms of one iteration of the loop of [render], shown to be what
    [render_object] computes in [render_object_returns]: first the two heap
    updates of the renewal branch. *)
Definition renewed (viewer : Viewer.t) (view : View.t) (object : Object3D.t)
    (h : Heap) : Heap :=
  update_mesh (Object3D.mesh object)
    (THREE.Mesh.set_material
       (Viewer.getMaterialForView viewer (View.type view)
          (shaderType_of (Object3D.material object))
          (HotspotMaterial.transparent (Object3D.material object))))
    (update_mesh (Object3D.mesh object)
       (THREE.Mesh.set_frustumCulled (bool_decide (View.type view = RECTILINEAR))) h).

(** The three attribute writes through [mesh.material]. *)
Definition refreshed (object : Object3D.t) (h : Heap) : Heap :=
  let r := THREE.Mesh.material (meshes h (Object3D.mesh object)) in
  let material := Object3D.material object in
  update_material r (THREE.Material.set_opacity (HotspotMaterial.opacity material))
    (update_material r (THREE.Material.set_transparent (HotspotMaterial.transparent material))
       (update_material r (THREE.Material.set_side (HotspotMaterial.threeSide material)) h)).

Definition reconciled (viewer : Viewer.t) (this : ObjectRenderer.t)
    (viewport : Viewport.t) (object : Object3D.t) (h : Heap) : Heap :=
  refreshed object
    (if renew_needed this viewport h object
     then renewed viewer (Viewport.view_current viewport) object h
     else h).

Definition reconcile_calls (this : ObjectRenderer.t) (viewport : Viewport.t)
    (j : nat) (object : Object3D.t) (h h' : Heap) : list Call :=
  (if renew_needed this viewport h object
   then [GetMaterialForView j (View.type (Viewport.view_current viewport))
           (shaderType_of (Object3D.material object))
           (HotspotMaterial.transparent (Object3D.material object))]
   else [])
  ++ [UpdateUniforms j (Viewport.view_current viewport)
        (THREE.Material.uniforms (mesh_material h' (Object3D.mesh object)))].

(** The parent of the mesh, if it has one, has a [children] array: [remove]
    can be called on it. *)
Definition parent_alive (h : Heap) (mesh : MeshRef) : Prop :=
  ∀ p, THREE.Mesh.parent (meshes h mesh) = Some p →
       is_Some (THREE.Scene.children (scenes h p)).

(** The same for the mesh of every object of a list, leaving aside the
    reference [fresh] that [new THREE.Scene()] is about to take. *)
Definition parents_alive (h : Heap) (fresh : SceneRef)
    (objects : list Object3D.t) : Prop :=
  ∀ o p, o ∈ objects → THREE.Mesh.parent (meshes h (Object3D.mesh o)) = Some p →
         p ≠ fresh → is_Some (THREE.Scene.children (scenes h p)).

(** A live instance whose scene has at least one child. *)
Definition nonempty_orchestrator (w : World) (viewer : Viewer.t)
    (objects : list Object3D.t) (scene : SceneRef) : Prop :=
  _viewer (this w) = Some viewer ∧
  _objects (this w) = Some objects ∧
  is_Some (_picking (this w)) ∧
  _scene (this w) = Some scene ∧
  ∃ children, THREE.Scene.children (scenes (heap w) scene) = Some children
              ∧ children ≠ [].

(** The five conditions that trigger the renewal of the material of
    [object]'s mesh, read on the instance [r] and the heap [h]. *)
Definition gate (r : ObjectRenderer.t) (viewport : Viewport.t) (h : Heap)
    (object : Object3D.t) : Prop :=
  _lastViewport r = None
  ∨ (∃ last, _lastViewport r = Some last ∧ Viewport.uid last ≠ Viewport.uid viewport)
  ∨ _lastViewType r = UNDEFINED
  ∨ _lastViewType r ≠ View.type (Viewport.view_current viewport)
  ∨ THREE.Material.transparent (mesh_material h (Object3D.mesh object))
    ≠ HotspotMaterial.transparent (Object3D.material object).

(** The instance has recorded this viewport and this view type, the view
    type is not the [UNDEFINED] sentinel, and every mesh is assigned a
    material of the transparency its object declares. *)
Definition settled (w : World) (objects : list Object3D.t)
    (viewport : Viewport.t) : Prop :=
  (∃ last, _lastViewport (this w) = Some last
           ∧ Viewport.uid last = Viewport.uid viewport)
  ∧ _lastViewType (this w) = View.type (Viewport.view_current viewport)
  ∧ View.type (Viewport.view_current viewport) ≠ UNDEFINED
  ∧ ∀ object, object ∈ objects →
      THREE.Material.transparent (mesh_material (heap w) (Object3D.mesh object))
      = HotspotMaterial.transparent (Object3D.material object).

(** The viewport or the view type is not the recorded one: the first four
    conditions of the gate, which do not depend on the object. *)
Definition viewport_changed (r : ObjectRenderer.t) (viewport : Viewport.t) : Prop :=
  _lastViewport r = None
  ∨ (∃ last, _lastViewport r = Some last ∧ Viewport.uid last ≠ Viewport.uid viewport)
  ∨ _lastViewType r = UNDEFINED
  ∨ _lastViewType r ≠ View.type (Viewport.view_current viewport).

(** The renderer facility never hands out one material object both as a
    transparent and as an opaque variant of a view type. *)
Definition keyed_by_transparency (viewer : Viewer.t) : Prop :=
  ∀ viewType shaderType shaderType',
    Viewer.getMaterialForView viewer viewType shaderType true
    ≠ Viewer.getMaterialForView viewer viewType shaderType' false.

(** The mesh's material reference is replaced while [this._objects[j]] is
    reconciled: [getMaterialForView] is called at index [j]. *)
Definition replaced_at (j : nat) (log : list Call) : Prop :=
  ∃ viewType shaderType transparent,
    GetMaterialForView j viewType shaderType transparent ∈ log.

(** The frame driver: [render] called once per frame, nothing else
    happening in between. *)
Fixpoint render_frames (frames : list (Viewport.t * RenderTarget)) : M unit :=
  match frames with
  | [] => mret tt
  | frame :: rest => render (fst frame) (snd frame);; render_frames rest
  end.

(** ** A sample scene

    Three hotspots on meshes 1, 2 and 3: the first is ready and interactive,
    the second is ready but not interactive, the third is not ready.  Mesh
    [r] has id [r], no parent, and starts with material [r], which is opaque
    and not compiled.  The renderer facility hands out one shared material per
    shading kind and transparency. *)

Definition sample_heap : Heap :=
  mkHeap
    (fun r => THREE.Mesh.mk (Z.of_nat r) None true r None)
    (fun r => THREE.Material.mk None THREE.FrontSide false 1 r)
    (fun _ => THREE.Scene.mk None)
    0.

Definition sample_viewport (viewType : ViewType) : Viewport.t :=
  Viewport.mk 1 "viewport-1" (View.mk viewType) 7.

Definition sample_viewer : Viewer.t :=
  Viewer.mk
    (fun _ shaderType transparent =>
       (if transparent then 100 else 102)
       + (if decide (shaderType = "color"%string) then 0 else 1))
    (Some (sample_viewport RECTILINEAR)).

Definition hotspot_a : Object3D.t :=
  Object3D.mk 1
    (HotspotMaterial.mk HotspotMaterial.GRAPHICS true (1 # 2) THREE.DoubleSide)
    true true.

Definition hotspot_b : Object3D.t :=
  Object3D.mk 2
    (HotspotMaterial.mk (HotspotMaterial.Textured "image") false 1 THREE.FrontSide)
    true false.

Definition hotspot_c : Object3D.t :=
  Object3D.mk 3
    (HotspotMaterial.mk (HotspotMaterial.Textured "video") false 1 THREE.BackSide)
    false true.

(** A second hotspot on mesh 1, as ready and interactive as the first. *)
Definition hotspot_a' : Object3D.t :=
  Object3D.mk 1
    (HotspotMaterial.mk HotspotMaterial.GRAPHICS true 1 THREE.FrontSide)
    true true.

Definition sample_objects : list Object3D.t := [hotspot_a; hotspot_b; hotspot_c].

Definition sample_color (id : Z) : Z := (2 * id + 1)%Z.

Definition sample_world : World :=
  world_of (new_ObjectRenderer sample_color sample_viewer sample_objects sample_heap).

Definition empty_world : World :=
  world_of (new_ObjectRenderer sample_color sample_viewer [] sample_heap).

(** The sample instance, with its list replaced by one in which two pickable
    objects share mesh 1. *)
Definition twin_world : World :=
  mkWorld (set_objects (Some [hotspot_b; hotspot_a; hotspot_a']) (this sample_world))
          (heap sample_world).

(** The sample instance after one frame for the given view type. *)
Definition rendered_world (viewType : ViewType) : World :=
  world_of (render (sample_viewport viewType) 0 sample_world).

(** ** Notions for the call log and for shared materials *)

(** The loop index of a call to [updateUniforms]. *)
Definition update_index (c : Call) : option nat :=
  match c with
  | UpdateUniforms j _ _ => Some j
  | _ => None
  end.

(** The loop index of a call to [getMaterialForView]. *)
Definition replace_index (c : Call) : option nat :=
  match c with
  | GetMaterialForView j _ _ _ => Some j
  | _ => None
  end.

(** The material object [mesh.material] refers to when the iteration of
    [this._objects[j]] ends: the one the three attribute writes went to. *)
Definition assigned_at (viewport : Viewport.t) (objects : list Object3D.t)
    (j : nat) (w : World) (object : Object3D.t) : MatRef :=
  THREE.Mesh.material (meshes (heap_at viewport objects (S j) w) (Object3D.mesh object)).

(** ** More sample instances *)

(** An instance booted on an empty list whose list received the three
    hotspots afterwards (the list is shared with its owner). *)
Definition late_world : World :=
  mkWorld (set_objects (Some sample_objects) (this empty_world)) (heap empty_world).


Definition destroyed_world : World := world_of (destroy sample_world).

(** A second viewport, with its own uid, as in a split screen. *)
Definition second_viewport (viewType : ViewType) : Viewport.t :=
  Viewport.mk 2 "viewport-2" (View.mk viewType) 8.

(** Every frame of the list is for a viewport whose uid is not that of the
    frame before it ([last] being the viewport recorded before the first). *)
Fixpoint uid_changes (last : option Viewport.t)
    (frames : list (Viewport.t * RenderTarget)) : Prop :=
  match frames with
  | [] => True
  | frame :: rest =>
      match last with
      | None => True
      | Some l => Viewport.uid l ≠ Viewport.uid (fst frame)
      end
      ∧ uid_changes (Some (fst frame)) rest
  end.

(** * Properties *)

(** ** Running methods *)

Ltac run :=
  cbv beta iota delta
    [mbind M_bind mret M_ret get_this get_heap modify_this modify_heap
     call throw nonnull].

Lemma world_eta (w : World) : mkWorld (this w) (heap w) = w.
Proof. destruct w; reflexivity. Qed.

Lemma for_objects_app {A : Type} (body : nat -> Object3D.t -> A -> M A)
    (l1 l2 : list Object3D.t) :
  ∀ j acc w,
    for_objects body j (l1 ++ l2) acc w =
    (for_objects body j l1 acc ≫= fun acc' => for_objects body (j + length l1) l2 acc') w.
Proof.
  induction l1 as [|o l1 IH]; intros j acc w; simpl.
  - run. rewrite Nat.add_0_r. destruct (for_objects body j l2 acc w); reflexivity.
  - unfold mbind, M_bind. destruct (body j o acc w) as [a w1 log1|e w1 log1]; [|reflexivity].
    rewrite IH. unfold mbind, M_bind.
    destruct (for_objects body (S j) l1 a w1) as [a2 w2 log2|e w2 log2]; [|reflexivity].
    replace (j + S (length l1)) with (S j + length l1) by lia.
    destruct (for_objects body (S j + length l1) l2 a2 w2);
      rewrite app_assoc; reflexivity.
Qed.

Lemma for_objects_snoc {A : Type} (body : nat -> Object3D.t -> A -> M A)
    (l : list Object3D.t) (o : Object3D.t) acc w a w1 log1 :
  for_objects body 0 l acc w = Returns a w1 log1 →
  for_objects body 0 (l ++ [o]) acc w =
    match body (length l) o a w1 with
    | Returns b w2 log2 => Returns b w2 (log1 ++ log2)
    | Throws e w2 log2 => Throws e w2 (log1 ++ log2)
    end.
Proof.
  intros Hrun. rewrite for_objects_app. unfold mbind at 1, M_bind at 1.
  rewrite Hrun. cbn [for_objects Nat.add]. run.
  destruct (body (length l) o a w1); rewrite ?app_nil_r; reflexivity.
Qed.

(** ** One iteration of the loop of [render] *)

Lemma render_object_returns viewer viewport j object c w :
  _viewer (this w) = Some viewer →
  render_object viewport j object c w =
    Returns
      (match THREE.Material.program (mesh_material (heap w) (Object3D.mesh object)) with
       | None => true
       | Some _ => c
       end)
      (mkWorld (this w) (reconciled viewer (this w) viewport object (heap w)))
      (reconcile_calls (this w) viewport j object (heap w)
         (reconciled viewer (this w) viewport object (heap w))).
Proof.
  intros Hv. unfold render_object, reconciled, reconcile_calls. run.
  destruct w as [t h]. simpl in Hv. cbv beta iota delta [this heap].
  destruct (renew_needed t viewport h object).
  - rewrite Hv. reflexivity.
  - reflexivity.
Qed.

Lemma render_loop_returns viewer viewport objects :
  ∀ j c w, _viewer (this w) = Some viewer →
    ∃ c' h' log,
      for_objects (render_object viewport) j objects c w
      = Returns c' (mkWorld (this w) h') log.
Proof.
  induction objects as [|o objects IH]; intros j c w Hv; simpl.
  - exists c, (heap w), []. run. by rewrite world_eta.
  - unfold mbind, M_bind. rewrite (render_object_returns viewer) by done.
    edestruct (IH (S j)) as (c' & h' & log & ->); [exact Hv|].
    simpl. eauto.
Qed.

(** The loop, run on a prefix of the list, leaves the heap [heap_at]. *)
Lemma render_prefix_returns viewer viewport objects k w :
  _viewer (this w) = Some viewer →
  ∃ c log,
    for_objects (render_object viewport) 0 (take k objects) false w
    = Returns c (mkWorld (this w) (heap_at viewport objects k w)) log.
Proof.
  intros Hv. unfold heap_at.
  destruct (render_loop_returns viewer viewport (take k objects) 0 false w Hv)
    as (c & h & log & ->).
  simpl. eauto.
Qed.

Lemma heap_at_0 viewport objects w : heap_at viewport objects 0 w = heap w.
Proof. unfold heap_at. rewrite take_0. reflexivity. Qed.

Lemma heap_at_S viewer viewport objects j object w :
  _viewer (this w) = Some viewer →
  objects !! j = Some object →
  heap_at viewport objects (S j) w
  = reconciled viewer (this w) viewport object (heap_at viewport objects j w).
Proof.
  intros Hv Hj.
  destruct (render_prefix_returns viewer viewport objects j w Hv) as (c & log & Hrun).
  unfold heap_at at 1. rewrite (take_S_r _ _ _ Hj), (for_objects_snoc _ _ _ _ _ _ _ _ Hrun).
  rewrite (render_object_returns viewer) by done. reflexivity.
Qed.

Lemma heap_at_ge viewport objects k w :
  length objects ≤ k →
  heap_at viewport objects k w = heap_at viewport objects (length objects) w.
Proof. intros Hk. unfold heap_at. by rewrite !take_ge by lia. Qed.

Lemma heap_at_app viewport l l' k w :
  k ≤ length l → heap_at viewport (l ++ l') k w = heap_at viewport l k w.
Proof. intros Hk. unfold heap_at. by rewrite take_app_le. Qed.

(** ** The whole loop: result flag and calls *)

Lemma render_loop_spec viewer viewport w :
  _viewer (this w) = Some viewer →
  ∀ objects, ∃ c log,
    for_objects (render_object viewport) 0 objects false w
    = Returns c (mkWorld (this w) (heap_at viewport objects (length objects) w)) log
    ∧ (c = true ↔
       ∃ j object, objects !! j = Some object ∧
         THREE.Material.program
           (mesh_material (heap_at viewport objects j w) (Object3D.mesh object)) = None)
    ∧ (∀ e, e ∈ log ↔
       ∃ j object, objects !! j = Some object ∧
         e ∈ reconcile_calls (this w) viewport j object
               (heap_at viewport objects j w) (heap_at viewport objects (S j) w)).
Proof.
  intros Hv objects. induction objects as [|o l IH] using rev_ind.
  - exists false, []. split; [|split].
    + simpl. run. by rewrite heap_at_0, world_eta.
    + split; [done|]. by intros (j & object & Hj & _).
    + intros e. split; [by intros ?%elem_of_nil|]. by intros (j & object & Hj & _).
  - destruct IH as (c & log & Hrun & Hc & Hlog).
    assert (Hlast : heap_at viewport (l ++ [o]) (length l) w
                    = heap_at viewport l (length l) w)
      by (by apply heap_at_app).
    assert (Hnext : heap_at viewport (l ++ [o]) (S (length l)) w
                    = reconciled viewer (this w) viewport o
                        (heap_at viewport l (length l) w)).
    { rewrite <- Hlast. apply heap_at_S; [done|]. by rewrite lookup_app_r, Nat.sub_diag. }
    eexists _, _. split; [|split].
    + rewrite (for_objects_snoc _ _ _ _ _ _ _ _ Hrun).
      rewrite (render_object_returns viewer) by done. cbn [this heap].
      rewrite length_app, Nat.add_1_r, Hnext. reflexivity.
    + cbn [heap]. split.
      * destruct (THREE.Material.program _) eqn:Hp.
        -- intros (j & object & Hj & Hu)%Hc. exists j, object.
           split; [by apply lookup_app_l_Some|].
           rewrite heap_at_app; [done|]. apply lookup_lt_Some in Hj. lia.
        -- intros _. exists (length l), o. split.
           ++ by rewrite lookup_app_r, Nat.sub_diag.
           ++ by rewrite Hlast.
      * intros (j & object & Hj & Hu). apply lookup_snoc_Some in Hj as [[Hlt Hj]|[-> ->]].
        -- rewrite heap_at_app in Hu by lia.
           destruct (THREE.Material.program
                       (mesh_material (heap_at viewport l (length l) w) (Object3D.mesh o)));
             [|done].
           apply Hc. eauto.
        -- rewrite Hlast in Hu. by rewrite Hu.
    + intros e. cbn [this heap]. rewrite elem_of_app, Hlog. split.
      * intros [(j & object & Hj & He)|He].
        -- exists j, object. pose proof (lookup_lt_Some _ _ _ Hj).
           split; [by apply lookup_app_l_Some|].
           by rewrite !heap_at_app by lia.
        -- exists (length l), o. split; [by rewrite lookup_app_r, Nat.sub_diag|].
           by rewrite Hlast, Hnext.
      * intros (j & object & Hj & He). apply lookup_snoc_Some in Hj as [[Hlt Hj]|[-> ->]].
        -- left. exists j, object. split; [done|]. by rewrite !heap_at_app in He by lia.
        -- right. by rewrite Hlast, Hnext in He.
Qed.

(** ** One call of [render] on a live, non-empty instance *)

Lemma render_spec w viewer objects sc viewport target :
  nonempty_orchestrator w viewer objects sc →
  ∃ (c : bool) loop_log,
    render viewport target w =
      Returns tt
        (mkWorld
           (set_lastViewType (View.type (Viewport.view_current viewport))
              (set_lastViewport (Some viewport) (this w)))
           (heap_at viewport objects (length objects) w))
        (loop_log
           ++ (if c then [WebGLCompile sc (Viewport.camera_main viewport)] else [])
           ++ WebGLRender sc (Viewport.camera_main viewport) target
              :: (if is_same_viewport (Viewer.activeViewport viewer) viewport
                     && bool_decide (0 < length (filter is_pickable objects))
                  then [PickingRender viewport] else []))
    ∧ (c = true ↔
       ∃ j object, objects !! j = Some object ∧
         THREE.Material.program
           (mesh_material (heap_at viewport objects j w) (Object3D.mesh object)) = None)
    ∧ (∀ e, e ∈ loop_log ↔
       ∃ j object, objects !! j = Some object ∧
         e ∈ reconcile_calls (this w) viewport j object
               (heap_at viewport objects j w) (heap_at viewport objects (S j) w)).
Proof.
  intros (Hv & Ho & [p Hp] & Hs & children & Hch & Hne).
  destruct (render_loop_spec viewer viewport w Hv objects) as (c & log & Hrun & Hc & Hlog).
  exists c, log. split; [|done].
  unfold render, _getPickableObjects. run.
  rewrite Hs, Hch. destruct (decide (length children = 0)) as [H0|_].
  { by destruct children. }
  rewrite Ho, Hrun. cbn [this heap]. rewrite Hv.
  destruct c; cbn [this heap]; rewrite Ho; cbn [this heap];
    (destruct (is_same_viewport _ _ && _); [rewrite Hp|]);
    cbn [this heap app]; rewrite ?app_nil_r; reflexivity.
Qed.

Lemma reconcile_calls_elem this viewport j object h h' e :
  e ∈ reconcile_calls this viewport j object h h' ↔
    (renew_needed this viewport h object = true ∧
     e = GetMaterialForView j (View.type (Viewport.view_current viewport))
           (shaderType_of (Object3D.material object))
           (HotspotMaterial.transparent (Object3D.material object)))
    ∨ e = UpdateUniforms j (Viewport.view_current viewport)
            (THREE.Material.uniforms (mesh_material h' (Object3D.mesh object))).
Proof.
  unfold reconcile_calls. rewrite elem_of_app, list_elem_of_singleton.
  destruct (renew_needed this viewport h object).
  - rewrite list_elem_of_singleton. tauto.
  - rewrite elem_of_nil. intuition discriminate.
Qed.

(** ** The pickable objects *)

Lemma find_in_filter {A : Type} (P Q : A → Prop)
    `{!∀ x, Decision (P x)} `{!∀ x, Decision (Q x)} (l : list A) :
  snd <$> list_find Q (filter P l) = snd <$> list_find (fun x => P x ∧ Q x) l.
Proof.
  induction l as [|x l IH]; [done|].
  rewrite filter_cons. cbn [list_find]. destruct (decide (P x)) as [HP|HP].
  - cbn [list_find]. destruct (decide (Q x)) as [HQ|HQ].
    + by rewrite decide_True.
    + rewrite decide_False by tauto.
      rewrite <- !option_fmap_compose.
      by destruct (list_find Q (filter P l)), (list_find _ l); simplify_eq/=; f_equal.
  - rewrite decide_False by tauto.
    rewrite <- !option_fmap_compose.
    by destruct (list_find Q (filter P l)), (list_find _ l); simplify_eq/=; f_equal.
Qed.

Lemma getPickableObjectWithId_returns w objects id :
  _objects (this w) = Some objects →
  getPickableObjectWithId id w =
    Returns
      (snd <$> list_find
         (fun o => is_pickable o ∧ mesh_id (heap w) (Object3D.mesh o) = id) objects)
      w [].
Proof.
  intros Ho. unfold getPickableObjectWithId, _getPickableObjects. run.
  rewrite Ho. cbn [this heap app]. by rewrite find_in_filter.
Qed.

(** C3. [getPickableObjectWithId id] returns an object of the list whose mesh
    id is [id] and which is ready and interactive, and it returns [undefined]
    exactly when the list holds no such object (in particular when the
    objects carrying [id] are not ready or not interactive); when one object
    only qualifies, that object is the result.  The pickable set it searches
    is the filter of the current list by [ready && interactive], an
    order-preserving subsequence, and neither query changes the state or
    keeps a cache. *)
Theorem getPickableObjectWithId_exact (w : World) (objects : list Object3D.t) (id : Z) :
  _objects (this w) = Some objects →
  ∃ found,
    getPickableObjectWithId id w = Returns found w []
    ∧ _getPickableObjects w = Returns (filter is_pickable objects) w []
    ∧ filter is_pickable objects `sublist_of` objects
    ∧ (∀ o, o ∈ filter is_pickable objects ↔
            o ∈ objects ∧ Object3D.ready o = true ∧ Object3D.interactive o = true)
    ∧ (∀ o, found = Some o →
            o ∈ objects ∧ mesh_id (heap w) (Object3D.mesh o) = id
            ∧ Object3D.ready o = true ∧ Object3D.interactive o = true)
    ∧ (found = None ↔
       ∀ o, o ∈ objects → mesh_id (heap w) (Object3D.mesh o) = id →
            ¬ (Object3D.ready o = true ∧ Object3D.interactive o = true))
    ∧ (∀ o, o ∈ objects → mesh_id (heap w) (Object3D.mesh o) = id →
            Object3D.ready o = true → Object3D.interactive o = true →
            (∀ o', o' ∈ objects → mesh_id (heap w) (Object3D.mesh o') = id →
                   Object3D.ready o' = true → Object3D.interactive o' = true → o' = o) →
            found = Some o).
Proof.
  intros Ho. eexists. split; [by apply getPickableObjectWithId_returns|].
  split; [|split; [apply sublist_filter|split; [|split; [|split]]]].
  - unfold _getPickableObjects. run. by rewrite Ho.
  - intros o. rewrite list_elem_of_filter. unfold is_pickable. tauto.
  - intros o Hfound.
    destruct (list_find _ objects) as [[i o']|] eqn:Hfind; simplify_eq/=.
    apply list_find_Some in Hfind as (Hi & [[Hr Hi'] Hid] & _).
    eauto using list_elem_of_lookup_2.
  - rewrite fmap_None, list_find_None, Forall_forall. unfold is_pickable.
    split; intros H o Hin; specialize (H o Hin); tauto.
  - intros o Hin Hid Hr Hi Huniq.
    destruct (list_find_elem_of
                (fun o => is_pickable o ∧ mesh_id (heap w) (Object3D.mesh o) = id)
                objects o Hin) as [[i o'] Hfind]; [done|].
    rewrite Hfind. simpl. f_equal.
    apply list_find_Some in Hfind as (Hi' & [[Hr' Hint'] Hid'] & _).
    eauto using list_elem_of_lookup_2.
Qed.

(** C10. When several pickable objects carry the same mesh id,
    [getPickableObjectWithId] returns the one that comes first in the object
    list: the object at index [i] is returned as soon as no earlier object is
    pickable with that id, whatever follows it. *)
Theorem getPickableObjectWithId_earliest (w : World) (objects : list Object3D.t)
    (id : Z) (i : nat) (o : Object3D.t) :
  _objects (this w) = Some objects →
  objects !! i = Some o →
  Object3D.ready o = true → Object3D.interactive o = true →
  mesh_id (heap w) (Object3D.mesh o) = id →
  (∀ j o', objects !! j = Some o' → j < i →
           ¬ (Object3D.ready o' = true ∧ Object3D.interactive o' = true
              ∧ mesh_id (heap w) (Object3D.mesh o') = id)) →
  getPickableObjectWithId id w = Returns (Some o) w [].
Proof.
  intros Ho Hi Hr Hint Hid Hfirst.
  rewrite (getPickableObjectWithId_returns w objects id Ho).
  assert (list_find (fun o => is_pickable o ∧ mesh_id (heap w) (Object3D.mesh o) = id)
            objects = Some (i, o)) as ->; [|done].
  apply list_find_Some. split; [done|]. split; [done|].
  intros j o' Hj Hlt [[Hr' Hint'] Hid']. by eapply (Hfirst j o').
Qed.

Lemma pickable_nonempty (objects : list Object3D.t) :
  0 < length (filter is_pickable objects) ↔
  ∃ o, o ∈ objects ∧ Object3D.ready o = true ∧ Object3D.interactive o = true.
Proof.
  split.
  - intros Hlen. destruct (filter is_pickable objects) as [|o l] eqn:Hf;
      [simpl in Hlen; lia|].
    assert (Hin : o ∈ filter is_pickable objects) by (rewrite Hf; left).
    apply list_elem_of_filter in Hin as [[Hr Hi] Hin]. eauto.
  - intros (o & Hin & Hr & Hi).
    assert (Hf : o ∈ filter is_pickable objects)
      by (by apply list_elem_of_filter).
    destruct (filter is_pickable objects); [by apply elem_of_nil in Hf|simpl; lia].
Qed.

(** ** What one call of [render] does *)

(** C4. On a non-empty instance, [render] calls the picking manager's
    [render], for the viewport being rendered and once, if and only if the
    active viewport is that viewport (the same object) and at least one
    object is ready and interactive; otherwise the picking manager is not
    called at all. *)
Theorem render_picking_iff_active_and_pickable (w : World) (viewer : Viewer.t)
    (objects : list Object3D.t) (sc : SceneRef)
    (viewport : Viewport.t) (target : RenderTarget) :
  nonempty_orchestrator w viewer objects sc →
  let active := ∃ a, Viewer.activeViewport viewer = Some a
                     ∧ Viewport.ident a = Viewport.ident viewport in
  let some_pickable := ∃ o, o ∈ objects ∧ Object3D.ready o = true
                            ∧ Object3D.interactive o = true in
  ∃ w' log,
    render viewport target w = Returns tt w' log
    ∧ (PickingRender viewport ∈ log ↔ active ∧ some_pickable)
    ∧ (∀ vp, PickingRender vp ∈ log →
         vp = viewport ∧
         ∃ before, log = before ++ [PickingRender viewport]
                   ∧ ∀ vp', PickingRender vp' ∉ before).
Proof.
  intros Hlive active some_pickable.
  destruct (render_spec w viewer objects sc viewport target Hlive)
    as (c & loop_log & Hrender & _ & Hlog).
  eexists _, _. split; [exact Hrender|].
  assert (Hloop : ∀ vp, PickingRender vp ∉ loop_log).
  { intros vp (j & o & _ & He)%Hlog.
    apply reconcile_calls_elem in He as [[_ He]|He]; discriminate. }
  assert (Hcond : is_same_viewport (Viewer.activeViewport viewer) viewport
                  && bool_decide (0 < length (filter is_pickable objects)) = true
                  ↔ active ∧ some_pickable).
  { rewrite andb_true_iff, bool_decide_eq_true. unfold active, some_pickable.
    cut ((is_same_viewport (Viewer.activeViewport viewer) viewport = true ↔
            ∃ a, Viewer.activeViewport viewer = Some a
                 ∧ Viewport.ident a = Viewport.ident viewport)
         ∧ (0 < length (filter is_pickable objects) ↔
            ∃ o, o ∈ objects ∧ Object3D.ready o = true
                 ∧ Object3D.interactive o = true)); [tauto|].
    split; [|apply pickable_nonempty].
    unfold is_same_viewport. destruct (Viewer.activeViewport viewer) as [a|].
    - rewrite bool_decide_eq_true. split; [eauto|]. by intros (? & [= <-] & ?).
    - split; [done|]. by intros (? & [=] & _). }
  destruct (is_same_viewport _ _ && _) eqn:Hpick.
  - split.
    + split; [intros _; by apply Hcond|]. intros _.
      rewrite !elem_of_app, !elem_of_cons. right. right. right. by left.
    + intros vp Hin. rewrite !elem_of_app, !elem_of_cons, elem_of_nil in Hin.
      destruct Hin as [Hin|[Hin|[Hin|[Hin|[]]]]]; try discriminate.
      * by apply Hloop in Hin.
      * by destruct c; [apply list_elem_of_singleton in Hin|apply elem_of_nil in Hin].
      * injection Hin as ->. split; [done|].
        exists (loop_log ++ (if c then [WebGLCompile sc (Viewport.camera_main viewport)]
                             else [])
                ++ [WebGLRender sc (Viewport.camera_main viewport) target]).
        split; [by rewrite <- !app_assoc|].
        intros vp'. rewrite !elem_of_app, list_elem_of_singleton.
        intros [Hin|[Hin|Hin]]; [by apply Hloop in Hin| |discriminate].
        by destruct c; [apply list_elem_of_singleton in Hin|apply elem_of_nil in Hin].
  - split.
    + split; [|intros H; apply Hcond in H; discriminate].
      rewrite !elem_of_app, !elem_of_cons, elem_of_nil.
      intros [Hin|[Hin|[Hin|[]]]]; try discriminate.
      * by apply Hloop in Hin.
      * by destruct c; [apply list_elem_of_singleton in Hin|apply elem_of_nil in Hin].
    + intros vp. rewrite !elem_of_app, !elem_of_cons, elem_of_nil.
      intros [Hin|[Hin|[Hin|[]]]]; try discriminate.
      * by apply Hloop in Hin.
      * by destruct c; [apply list_elem_of_singleton in Hin|apply elem_of_nil in Hin].
Qed.

Lemma refreshed_meshes object h : meshes (refreshed object h) = meshes h.
Proof. reflexivity. Qed.

Lemma refreshed_materials object h r :
  materials (refreshed object h) r
  = if decide (r = THREE.Mesh.material (meshes h (Object3D.mesh object)))
    then THREE.Material.mk
           (THREE.Material.program (mesh_material h (Object3D.mesh object)))
           (HotspotMaterial.threeSide (Object3D.material object))
           (HotspotMaterial.transparent (Object3D.material object))
           (HotspotMaterial.opacity (Object3D.material object))
           (THREE.Material.uniforms (mesh_material h (Object3D.mesh object)))
    else materials h r.
Proof.
  unfold mesh_material, refreshed, update_material, upd. cbn.
  by repeat case_decide.
Qed.

Lemma refreshed_assigned object h :
  mesh_material (refreshed object h) (Object3D.mesh object)
  = THREE.Material.mk
      (THREE.Material.program (mesh_material h (Object3D.mesh object)))
      (HotspotMaterial.threeSide (Object3D.material object))
      (HotspotMaterial.transparent (Object3D.material object))
      (HotspotMaterial.opacity (Object3D.material object))
      (THREE.Material.uniforms (mesh_material h (Object3D.mesh object))).
Proof.
  unfold mesh_material, refreshed, update_material, upd. cbn.
  by rewrite !decide_True.
Qed.

Lemma reconciled_materials viewer r viewport object h (m : MatRef) :
  materials (reconciled viewer r viewport object h) m
  = if decide (m = THREE.Mesh.material
                     (meshes (reconciled viewer r viewport object h)
                        (Object3D.mesh object)))
    then THREE.Material.mk
           (THREE.Material.program (materials h m))
           (HotspotMaterial.threeSide (Object3D.material object))
           (HotspotMaterial.transparent (Object3D.material object))
           (HotspotMaterial.opacity (Object3D.material object))
           (THREE.Material.uniforms (materials h m))
    else materials h m.
Proof.
  unfold reconciled. rewrite refreshed_materials, refreshed_meshes.
  destruct (renew_needed r viewport h object); case_decide; by subst.
Qed.

Lemma assigned_at_reconciled w viewer objects viewport j object :
  _viewer (this w) = Some viewer →
  objects !! j = Some object →
  assigned_at viewport objects j w object
  = THREE.Mesh.material
      (meshes (reconciled viewer (this w) viewport object (heap_at viewport objects j w))
         (Object3D.mesh object)).
Proof. intros Hv Hj. unfold assigned_at. by rewrite (heap_at_S viewer _ _ _ object). Qed.

Lemma materials_kept w viewer objects viewport (r : MatRef) (k : nat) :
  _viewer (this w) = Some viewer →
  ∀ n, k ≤ n → n ≤ length objects →
    (∀ j object, k ≤ j → j < n → objects !! j = Some object →
       assigned_at viewport objects j w object ≠ r) →
    materials (heap_at viewport objects n w) r
    = materials (heap_at viewport objects k w) r.
Proof.
  intros Hv. induction n as [|n IH]; intros Hkn Hn Hother.
  - by replace k with 0 by lia.
  - destruct (decide (k = S n)) as [->|Hk]; [done|].
    destruct (lookup_lt_is_Some_2 objects n) as [o Ho]; [lia|].
    rewrite <- IH; [|lia|lia|intros j object ???; apply Hother; (done || lia)].
    rewrite (heap_at_S viewer _ _ _ o), reconciled_materials by done.
    rewrite decide_False; [done|].
    rewrite <- (assigned_at_reconciled w viewer) by done.
    intros ->. apply (Hother n o); (done || lia).
Qed.


(** C8. On a non-empty instance [render] calls the WebGL renderer's
    [compile] (on the scene and the viewport's camera) if and only if the
    material of some object's mesh had no shader program when the loop
    examined it, and when it does so the call comes directly before the draw
    call, which nothing of the kind precedes. *)
Theorem render_compiles_iff_uncompiled (w : World) (viewer : Viewer.t)
    (objects : list Object3D.t) (sc : SceneRef)
    (viewport : Viewport.t) (target : RenderTarget) :
  nonempty_orchestrator w viewer objects sc →
  let camera := Viewport.camera_main viewport in
  let uncompiled :=
    ∃ j object, objects !! j = Some object ∧
      THREE.Material.program
        (mesh_material (heap_at viewport objects j w) (Object3D.mesh object)) = None in
  ∃ w' log,
    render viewport target w = Returns tt w' log
    ∧ (uncompiled ↔ WebGLCompile sc camera ∈ log)
    ∧ (∀ s cam, WebGLCompile s cam ∈ log →
         s = sc ∧ cam = camera ∧
         ∃ before after,
           log = before ++ WebGLCompile sc camera :: WebGLRender sc camera target :: after
           ∧ (∀ s' cam', WebGLCompile s' cam' ∉ before)
           ∧ (∀ s' cam' t', WebGLRender s' cam' t' ∉ before)).
Proof.
  intros Hlive camera uncompiled. subst camera.
  destruct (render_spec w viewer objects sc viewport target Hlive)
    as (c & loop_log & Hrender & Hc & Hlog).
  eexists _, _. split; [exact Hrender|].
  assert (Hloop1 : ∀ s cam, WebGLCompile s cam ∉ loop_log).
  { intros s cam (j & o & _ & He)%Hlog.
    apply reconcile_calls_elem in He as [[_ He]|He]; discriminate. }
  assert (Hloop2 : ∀ s cam t, WebGLRender s cam t ∉ loop_log).
  { intros s cam t (j & o & _ & He)%Hlog.
    apply reconcile_calls_elem in He as [[_ He]|He]; discriminate. }
  fold uncompiled in Hc.
  assert (Htail : ∀ s cam,
            WebGLCompile s cam ∉
              (if is_same_viewport (Viewer.activeViewport viewer) viewport
                  && bool_decide (0 < length (filter is_pickable objects))
               then [PickingRender viewport] else [])).
  { intros s cam Hin.
    by destruct (_ && _); [apply list_elem_of_singleton in Hin|apply elem_of_nil in Hin]. }
  destruct c; cbv iota.
  - split.
    + split; [|intros _; by apply Hc]. intros _.
      rewrite !elem_of_app, list_elem_of_singleton. right. by left.
    + intros s cam. rewrite !elem_of_app, list_elem_of_singleton, elem_of_cons.
      intros [Hin|[Hin|[Hin|Hin]]]; try discriminate.
      * by apply Hloop1 in Hin.
      * injection Hin as -> ->. split; [done|]. split; [done|].
        exists loop_log. eexists. split; [reflexivity|]. split; [apply Hloop1|apply Hloop2].
      * by apply Htail in Hin.
  - split.
    + split; [intros Hu; by apply Hc in Hu|].
      rewrite !elem_of_app, elem_of_nil, elem_of_cons.
      intros [Hin|[[]|[Hin|Hin]]]; try discriminate.
      * by apply Hloop1 in Hin.
      * by apply Htail in Hin.
    + intros s cam. rewrite !elem_of_app, elem_of_nil, elem_of_cons.
      intros [Hin|[[]|[Hin|Hin]]]; try discriminate.
      * by apply Hloop1 in Hin.
      * by apply Htail in Hin.
Qed.

(** ** Construction *)

Lemma NoDup_fmap_elem_inj {A B : Type} (f : A → B) (l : list A) (x y : A) :
  NoDup (f <$> l) → x ∈ l → y ∈ l → f x = f y → x = y.
Proof.
  intros Hnd (i & Hi)%list_elem_of_lookup (j & Hj)%list_elem_of_lookup Hf.
  assert (i = j) as ->.
  { apply (NoDup_lookup (f <$> l) i j (f x) Hnd).
    - by rewrite list_lookup_fmap, Hi.
    - by rewrite list_lookup_fmap, Hj, Hf. }
  congruence.
Qed.

(** *** [scene.add(mesh)] and the loop of [_boot] *)

Lemma splice_first_notin (m : MeshRef) (c : list MeshRef) : m ∉ c → splice_first m c = c.
Proof.
  induction c as [|x c IH]; [done|]. intros Hm. cbn.
  rewrite decide_False by (intros ->; apply Hm; left).
  f_equal. apply IH. intros ?. apply Hm. by right.
Qed.

Lemma Object3D_remove_run p (m : MeshRef) w :
  Object3D_remove p m w =
    match THREE.Scene.children (scenes (heap w) p) with
    | None => Throws (TypeError "this.children") w []
    | Some cp =>
        Returns tt
          (mkWorld (this w)
             (if decide (m ∈ cp)
              then update_scene p (fun _ => THREE.Scene.mk (Some (splice_first m cp)))
                     (update_mesh m (THREE.Mesh.set_parent None) (heap w))
              else heap w))
          []
    end.
Proof.
  unfold Object3D_remove. run. destruct w as [r h]. cbn [this heap].
  destruct (THREE.Scene.children (scenes h p)) as [cp|]; [|done].
  by destruct (decide (m ∈ cp)).
Qed.

Lemma Object3D_add_run sc (m : MeshRef) w :
  Object3D_add sc m w =
    match
      match THREE.Mesh.parent (meshes (heap w) m) with
      | Some p => Object3D_remove p m w
      | None => Returns tt w []
      end
    with
    | Returns _ w1 _ =>
        match THREE.Scene.children (scenes (heap w1) sc) with
        | Some c =>
            Returns tt
              (mkWorld (this w1)
                 (update_scene sc (fun _ => THREE.Scene.mk (Some (c ++ [m])))
                    (update_mesh m (THREE.Mesh.set_parent (Some sc)) (heap w1))))
              []
        | None =>
            Throws (TypeError "this.children")
              (mkWorld (this w1) (update_mesh m (THREE.Mesh.set_parent (Some sc)) (heap w1)))
              []
        end
    | Throws e w1 log => Throws e w1 log
    end.
Proof.
  unfold Object3D_add. run. destruct w as [r h]. cbn [this heap].
  destruct (THREE.Mesh.parent (meshes h m)) as [p|].
  - rewrite Object3D_remove_run. cbn [this heap].
    destruct (THREE.Scene.children (scenes h p)) as [cp|]; [|done].
    cbn [this heap].
    destruct (THREE.Scene.children _) ; done.
  - cbn [this heap]. destruct (THREE.Scene.children _); done.
Qed.

Lemma meshes_update_mesh r f h m :
  meshes (update_mesh r f h) m = if decide (m = r) then f (meshes h r) else meshes h m.
Proof. reflexivity. Qed.

Lemma scenes_update_scene r f h s :
  scenes (update_scene r f h) s = if decide (s = r) then f (scenes h r) else scenes h s.
Proof. reflexivity. Qed.

Lemma boot_object_run colorFromObjectID i o w sc :
  _scene (this w) = Some sc →
  _boot_object colorFromObjectID i o tt w
  = Object3D_add sc (Object3D.mesh o)
      (mkWorld (this w)
         (update_mesh (Object3D.mesh o)
            (THREE.Mesh.set_pickingColor
               (colorFromObjectID (mesh_id (heap w) (Object3D.mesh o)))) (heap w))).
Proof.
  intros Hs. unfold _boot_object. run. cbn [this heap]. rewrite Hs. cbn [this heap].
  by destruct (Object3D_add _ _ _).
Qed.

Lemma boot_object_spec colorFromObjectID i o w sc c :
  _scene (this w) = Some sc →
  THREE.Scene.children (scenes (heap w) sc) = Some c →
  let m := Object3D.mesh o in
  match _boot_object colorFromObjectID i o tt w with
  | Returns _ w' log =>
      log = [] ∧ this w' = this w
      ∧ parent_alive (heap w) m
      ∧ meshes (heap w') m
        = THREE.Mesh.mk (THREE.Mesh.id (meshes (heap w) m))
            (Some (colorFromObjectID (mesh_id (heap w) m)))
            (THREE.Mesh.frustumCulled (meshes (heap w) m))
            (THREE.Mesh.material (meshes (heap w) m))
            (Some sc)
      ∧ (∀ m', m' ≠ m → meshes (heap w') m' = meshes (heap w) m')
      ∧ materials (heap w') = materials (heap w)
      ∧ next_scene (heap w') = next_scene (heap w)
      ∧ (∀ s, is_Some (THREE.Scene.children (scenes (heap w') s))
              ↔ is_Some (THREE.Scene.children (scenes (heap w) s)))
      ∧ ∃ c', THREE.Scene.children (scenes (heap w') sc) = Some (c' ++ [m])
              ∧ (m ∉ c → c' = c)
  | Throws e w' log =>
      e = TypeError "this.children" ∧ log = [] ∧ this w' = this w
      ∧ ¬ parent_alive (heap w) m
  end.
Proof.
  intros Hs Hc m. destruct w as [r h]. cbn [this heap] in *.
  rewrite (boot_object_run _ _ _ _ sc) by done.
  rewrite Object3D_add_run. cbn [this heap]. fold m.
  rewrite meshes_update_mesh, decide_True by done.
  change (THREE.Mesh.parent (THREE.Mesh.set_pickingColor _ (meshes h m)))
    with (THREE.Mesh.parent (meshes h m)).
  assert (Hfin : ∀ (h1 : Heap) (c1 : list MeshRef),
            THREE.Scene.children (scenes h1 sc) = Some c1 →
            (m ∉ c → c1 = c) →
            parent_alive h m →
            THREE.Mesh.id (meshes h1 m) = THREE.Mesh.id (meshes h m) →
            THREE.Mesh.pickingColor (meshes h1 m)
              = Some (colorFromObjectID (mesh_id h m)) →
            THREE.Mesh.frustumCulled (meshes h1 m) = THREE.Mesh.frustumCulled (meshes h m) →
            THREE.Mesh.material (meshes h1 m) = THREE.Mesh.material (meshes h m) →
            (∀ m', m' ≠ m → meshes h1 m' = meshes h m') →
            materials h1 = materials h → next_scene h1 = next_scene h →
            (∀ s, is_Some (THREE.Scene.children (scenes h1 s))
                  ↔ is_Some (THREE.Scene.children (scenes h s))) →
            match
              match THREE.Scene.children (scenes h1 sc) with
              | Some c =>
                  Returns tt
                    (mkWorld r
                       (update_scene sc (fun _ => THREE.Scene.mk (Some (c ++ [m])))
                          (update_mesh m (THREE.Mesh.set_parent (Some sc)) h1)))
                    []
              | None =>
                  Throws (TypeError "this.children")
                    (mkWorld r (update_mesh m (THREE.Mesh.set_parent (Some sc)) h1)) []
              end
            with
            | Returns _ w' log =>
                log = [] ∧ this w' = r
                ∧ parent_alive h m
                ∧ meshes (heap w') m
                  = THREE.Mesh.mk (THREE.Mesh.id (meshes h m))
                      (Some (colorFromObjectID (mesh_id h m)))
                      (THREE.Mesh.frustumCulled (meshes h m))
                      (THREE.Mesh.material (meshes h m))
                      (Some sc)
                ∧ (∀ m', m' ≠ m → meshes (heap w') m' = meshes h m')
                ∧ materials (heap w') = materials h
                ∧ next_scene (heap w') = next_scene h
                ∧ (∀ s, is_Some (THREE.Scene.children (scenes (heap w') s))
                        ↔ is_Some (THREE.Scene.children (scenes h s)))
                ∧ ∃ c', THREE.Scene.children (scenes (heap w') sc) = Some (c' ++ [m])
                        ∧ (m ∉ c → c' = c)
            | Throws e w' log =>
                e = TypeError "this.children" ∧ log = [] ∧ this w' = r
                ∧ ¬ parent_alive h m
            end).
  { intros h1 c1 Hc1 Hc1c Halive Hid Hcol Hfc Hmat Hother Hmats Hnext Hsome.
    rewrite Hc1. cbn [this heap]. split; [done|]. split; [done|]. split; [done|].
    split.
    { rewrite <- Hid, <- Hcol, <- Hfc, <- Hmat. cbn. unfold upd.
      rewrite decide_True by done. by destruct (meshes h1 m). }
    split.
    { intros m' Hm'. cbn. unfold upd. rewrite decide_False by done. by apply Hother. }
    split; [done|]. split; [done|]. split.
    { intros s. rewrite <- Hsome. cbn. unfold upd.
      case_decide; [subst|done]. rewrite Hc1. split; intros _; by eexists. }
    exists c1. split; [|done]. cbn. unfold upd. by rewrite decide_True. }
  destruct (THREE.Mesh.parent (meshes h m)) as [p|] eqn:Hp.
  - rewrite Object3D_remove_run. cbn [this heap].
    change (scenes (update_mesh m (THREE.Mesh.set_pickingColor
                                     (colorFromObjectID (mesh_id h m))) h))
      with (scenes h).
    destruct (THREE.Scene.children (scenes h p)) as [cp|] eqn:Hcp.
    + assert (Halive : parent_alive h m).
      { intros p' ?. assert (p' = p) as -> by congruence. by rewrite Hcp. }
      cbn [this heap]. destruct (decide (m ∈ cp)) as [Hin|Hin].
      * apply (Hfin _ (if decide (sc = p) then splice_first m cp else c)); try done.
        -- cbn. unfold upd. by repeat case_decide.
        -- intros Hnot. case_decide; [|done]. subst p.
           assert (cp = c) as -> by congruence. by apply splice_first_notin.
        -- cbn. unfold upd. by rewrite !decide_True.
        -- cbn. unfold upd. by rewrite !decide_True.
        -- cbn. unfold upd. by rewrite !decide_True.
        -- cbn. unfold upd. by rewrite !decide_True.
        -- intros m' Hm'. cbn. unfold upd. by rewrite !decide_False.
        -- intros s. cbn. unfold upd. case_decide; [subst|done].
           rewrite Hcp. split; intros _; by eexists.
      * apply (Hfin _ c); try done.
        -- cbn. unfold upd. by rewrite !decide_True.
        -- cbn. unfold upd. by rewrite !decide_True.
        -- cbn. unfold upd. by rewrite !decide_True.
        -- cbn. unfold upd. by rewrite !decide_True.
        -- intros m' Hm'. cbn. unfold upd. by rewrite !decide_False.
    + split; [done|]. split; [done|]. split; [done|].
      intros Halive. destruct (Halive p Hp) as [? Hsome]. congruence.
  - apply (Hfin _ c); try done.
    + intros p' ?. congruence.
    + cbn. unfold upd. by rewrite !decide_True.
    + cbn. unfold upd. by rewrite !decide_True.
    + cbn. unfold upd. by rewrite !decide_True.
    + cbn. unfold upd. by rewrite !decide_True.
    + intros m' Hm'. cbn. unfold upd. by rewrite !decide_False.
Qed.

Lemma boot_loop_spec colorFromObjectID sc objects :
  ∀ i w c,
    _scene (this w) = Some sc →
    THREE.Scene.children (scenes (heap w) sc) = Some c →
    match for_objects (_boot_object colorFromObjectID) i objects tt w with
    | Returns _ w' log =>
        log = [] ∧ this w' = this w
        ∧ (∃ c', THREE.Scene.children (scenes (heap w') sc) = Some c'
                 ∧ (c ≠ [] ∨ objects ≠ [] → c' ≠ [])
                 ∧ (NoDup (Object3D.mesh <$> objects) →
                    (∀ o, o ∈ objects → Object3D.mesh o ∉ c) →
                    c' = c ++ (Object3D.mesh <$> objects)))
        ∧ (∀ o, o ∈ objects →
             THREE.Mesh.pickingColor (meshes (heap w') (Object3D.mesh o))
             = Some (colorFromObjectID (mesh_id (heap w) (Object3D.mesh o)))
             ∧ THREE.Mesh.parent (meshes (heap w') (Object3D.mesh o)) = Some sc)
        ∧ (∀ m, THREE.Mesh.id (meshes (heap w') m) = THREE.Mesh.id (meshes (heap w) m)
                ∧ THREE.Mesh.frustumCulled (meshes (heap w') m)
                  = THREE.Mesh.frustumCulled (meshes (heap w) m)
                ∧ THREE.Mesh.material (meshes (heap w') m)
                  = THREE.Mesh.material (meshes (heap w) m))
        ∧ (∀ m, (∀ o, o ∈ objects → Object3D.mesh o ≠ m) →
                meshes (heap w') m = meshes (heap w) m)
        ∧ materials (heap w') = materials (heap w)
        ∧ next_scene (heap w') = next_scene (heap w)
        ∧ (∀ s, is_Some (THREE.Scene.children (scenes (heap w') s))
                ↔ is_Some (THREE.Scene.children (scenes (heap w) s)))
        ∧ (∀ o, o ∈ objects → parent_alive (heap w) (Object3D.mesh o))
    | Throws e w' log =>
        e = TypeError "this.children" ∧ log = [] ∧ this w' = this w
        ∧ ∃ o, o ∈ objects ∧ ¬ parent_alive (heap w) (Object3D.mesh o)
    end.
Proof.
  induction objects as [|o objects IH]; intros i w c Hs Hc.
  - simpl. run. split; [done|]. split; [done|]. split.
    { exists c. split; [done|]. split; [by intros [?|?]|]. intros _ _. by rewrite app_nil_r. }
    split; [by intros o ?%elem_of_nil|]. repeat split; try done.
    by intros o ?%elem_of_nil.
  - cbn [for_objects]. unfold mbind at 1, M_bind at 1.
    pose proof (boot_object_spec colorFromObjectID i o w sc c Hs Hc) as Hstep.
    cbv zeta in Hstep.
    destruct (_boot_object colorFromObjectID i o tt w) as [[] w1 log1|e w1 log1].
    2: { destruct Hstep as (-> & -> & Hthis & Hdead). split; [done|]. split; [done|].
         split; [done|]. exists o. split; [left|done]. }
    destruct Hstep as (-> & Hthis1 & Halive & Hmesh & Hother & Hmats & Hnext & Hsome
                       & c1 & Hc1 & Hc1c).
    assert (Hid1 : ∀ m, mesh_id (heap w1) m = mesh_id (heap w) m).
    { intros m. unfold mesh_id. destruct (decide (m = Object3D.mesh o)) as [->|Hm].
      - by rewrite Hmesh.
      - by rewrite Hother. }
    assert (Hs1 : _scene (this w1) = Some sc) by (by rewrite Hthis1).
    pose proof (IH (S i) w1 (c1 ++ [Object3D.mesh o]) Hs1 Hc1) as Hrest.
    destruct (for_objects (_boot_object colorFromObjectID) (S i) objects tt w1)
      as [[] w2 log2|e w2 log2].
    + destruct Hrest as (-> & Hthis2 & (c2 & Hc2 & Hc2ne & Hc2eq) & Hcol & Hfields
                         & Hout & Hmats2 & Hnext2 & Hsome2 & Halive2).
      split; [done|]. split; [congruence|]. split.
      { exists c2. split; [done|]. split.
        - intros _. apply Hc2ne. left. by destruct c1.
        - intros Hnd Hfresh. apply NoDup_cons in Hnd as [Hhead Hnd].
          rewrite Hc2eq.
          + rewrite Hc1c by (apply Hfresh; left). by rewrite <- app_assoc.
          + done.
          + intros o' Hin. rewrite Hc1c by (apply Hfresh; left).
            rewrite elem_of_app, list_elem_of_singleton. intros [Hinc|Heq].
            * by apply (Hfresh o'); [right|].
            * apply Hhead. rewrite <- Heq. apply list_elem_of_fmap. eauto. }
      split.
      { intros o' Hin.
        destruct (decide (Object3D.mesh o ∈ Object3D.mesh <$> objects)) as [Hshared|Hown].
        - apply list_elem_of_fmap in Hshared as (o'' & Heq & Hin'').
          apply elem_of_cons in Hin as [->|Hin].
          + rewrite Heq. destruct (Hcol o'' Hin'') as [-> ->]. by rewrite Hid1.
          + destruct (Hcol o' Hin) as [-> ->]. by rewrite Hid1.
        - apply elem_of_cons in Hin as [->|Hin].
          + rewrite Hout, Hmesh; [done|].
            intros o'' Hin'' Heq. apply Hown. rewrite <- Heq.
            apply list_elem_of_fmap. eauto.
          + destruct (Hcol o' Hin) as [-> ->]. by rewrite Hid1. }
      split.
      { intros m. destruct (Hfields m) as (-> & -> & ->).
        destruct (decide (m = Object3D.mesh o)) as [->|Hm].
        - by rewrite Hmesh.
        - by rewrite Hother. }
      split.
      { intros m Hm. rewrite Hout by (intros o' ?; apply Hm; by right).
        apply Hother. intros ->. by apply (Hm o); [left|]. }
      split; [congruence|]. split; [congruence|]. split.
      { intros s. by rewrite Hsome2, Hsome. }
      intros o' Hin. apply elem_of_cons in Hin as [->|Hin]; [done|].
      destruct (decide (Object3D.mesh o' = Object3D.mesh o)) as [Heq|Hne];
        [by rewrite Heq|].
      intros p Hp. apply Hsome. apply (Halive2 o' Hin p). by rewrite Hother.
    + destruct Hrest as (-> & -> & Hthis2 & Hdead).
      split; [done|]. split; [done|]. split; [congruence|].
      destruct Hdead as (o' & Hin & Hnot).
      destruct (decide (Object3D.mesh o' = Object3D.mesh o)) as [Heq|Hne].
      * exfalso. apply Hnot. rewrite Heq. intros p Hp. rewrite Hmesh in Hp.
        injection Hp as <-. rewrite Hc1. by eexists.
      * exists o'. split; [by right|].
        intros Halive'. apply Hnot. intros p Hp.
        rewrite Hother in Hp by done. apply Hsome. by apply Halive'.
Qed.

Lemma new_ObjectRenderer_run colorFromObjectID viewer objects h :
  new_ObjectRenderer colorFromObjectID viewer objects h =
    match
      for_objects (_boot_object colorFromObjectID) 0 objects tt
        (mkWorld (mk (Some viewer) (Some (next_scene h)) (Some objects) None UNDEFINED None)
           (snd (new_Scene h)))
    with
    | Returns _ w' log =>
        Returns tt
          (mkWorld (set_picking (Some (Picking.mk (Some viewer))) (this w')) (heap w'))
          (log ++ [NewPicking])
    | Throws e w' log => Throws e w' log
    end.
Proof.
  unfold new_ObjectRenderer, _boot. run.
  cbn [this heap _objects _viewer set_scene fst new_Scene].
  by destruct (for_objects _ _ _ _ _).
Qed.

Lemma parent_alive_fresh h objects :
  (∀ o, o ∈ objects → parent_alive (snd (new_Scene h)) (Object3D.mesh o))
  ↔ parents_alive h (next_scene h) objects.
Proof.
  unfold parent_alive, parents_alive, new_Scene, upd. cbn. split.
  - intros H o p Hin Hp Hne. specialize (H o Hin p Hp).
    by rewrite decide_False in H.
  - intros H o Hin p Hp. case_decide; [by eexists|]. by apply (H o p).
Qed.

Lemma new_ObjectRenderer_spec colorFromObjectID viewer objects h :
  match new_ObjectRenderer colorFromObjectID viewer objects h with
  | Returns _ w log =>
      log = [NewPicking]
      ∧ this w = mk (Some viewer) (Some (next_scene h)) (Some objects) None UNDEFINED
                    (Some (Picking.mk (Some viewer)))
      ∧ (∃ c', THREE.Scene.children (scenes (heap w) (next_scene h)) = Some c'
               ∧ (objects ≠ [] → c' ≠ [])
               ∧ (NoDup (Object3D.mesh <$> objects) → c' = Object3D.mesh <$> objects))
      ∧ (∀ o, o ∈ objects →
           THREE.Mesh.pickingColor (meshes (heap w) (Object3D.mesh o))
           = Some (colorFromObjectID (mesh_id h (Object3D.mesh o)))
           ∧ THREE.Mesh.parent (meshes (heap w) (Object3D.mesh o)) = Some (next_scene h))
      ∧ (∀ m, THREE.Mesh.id (meshes (heap w) m) = THREE.Mesh.id (meshes h m)
              ∧ THREE.Mesh.frustumCulled (meshes (heap w) m)
                = THREE.Mesh.frustumCulled (meshes h m)
              ∧ THREE.Mesh.material (meshes (heap w) m) = THREE.Mesh.material (meshes h m))
      ∧ (∀ m, (∀ o, o ∈ objects → Object3D.mesh o ≠ m) → meshes (heap w) m = meshes h m)
      ∧ materials (heap w) = materials h
      ∧ (∀ s, s ≠ next_scene h →
              (is_Some (THREE.Scene.children (scenes (heap w) s))
               ↔ is_Some (THREE.Scene.children (scenes h s))))
      ∧ parents_alive h (next_scene h) objects
      ∧ next_scene (heap w) = S (next_scene h)
  | Throws e w log =>
      e = TypeError "this.children" ∧ log = []
      ∧ this w = mk (Some viewer) (Some (next_scene h)) (Some objects) None UNDEFINED None
      ∧ ¬ parents_alive h (next_scene h) objects
  end.
Proof.
  rewrite new_ObjectRenderer_run.
  pose proof (boot_loop_spec colorFromObjectID (next_scene h) objects 0
                (mkWorld (mk (Some viewer) (Some (next_scene h)) (Some objects) None
                            UNDEFINED None) (snd (new_Scene h)))
                [] eq_refl) as Hloop.
  cbn [this heap] in Hloop.
  destruct (for_objects _ _ _ _ _) as [[] w' log|e w' log].
  - destruct Hloop as (-> & Hthis & (c' & Hc' & Hne & Heq) & Hcol & Hfields & Hout
                       & Hmats & Hnext & Hsome & Halive).
    { unfold new_Scene, upd. cbn. by rewrite decide_True. }
    cbn [this heap]. rewrite Hthis. split; [done|]. split; [done|]. split.
    { exists c'. split; [done|]. split; [intros ?; apply Hne; by right|].
      intros Hnd. rewrite Heq; [done..|]. by intros o _ ?%elem_of_nil. }
    split; [done|]. split; [done|]. split; [done|]. split; [done|]. split.
    { intros s Hs. rewrite Hsome. unfold new_Scene, upd. cbn. by rewrite decide_False. }
    split; [by apply parent_alive_fresh|done].
  - destruct Hloop as (-> & -> & Hthis & Hdead).
    { unfold new_Scene, upd. cbn. by rewrite decide_True. }
    split; [done|]. split; [done|]. split; [done|].
    intros Halive. destruct Hdead as (o & Hin & Hnot).
    apply Hnot. by apply (proj2 (parent_alive_fresh h objects) Halive).
Qed.

(** A scene that is neither the new one nor the parent of a mesh of the
    list is not touched, whether the constructor returns or throws. *)
Ltac scenes_frame :=
  match goal with
  | |- context [match ?x with Some _ => Returns _ _ _ | None => Throws _ _ _ end] =>
      destruct x
  | _ => idtac
  end;
  (cbn; unfold upd; split; [done|];
   split; [repeat case_decide; congruence
          |intros m'; repeat case_decide; cbn; congruence]).

Lemma boot_object_scenes colorFromObjectID i o w sc (s : SceneRef) :
  _scene (this w) = Some sc → s ≠ sc →
  THREE.Mesh.parent (meshes (heap w) (Object3D.mesh o)) ≠ Some s →
  match _boot_object colorFromObjectID i o tt w with
  | Returns _ w' _ | Throws _ w' _ =>
      this w' = this w
      ∧ scenes (heap w') s = scenes (heap w) s
      ∧ ∀ m, THREE.Mesh.parent (meshes (heap w') m) = Some s →
             THREE.Mesh.parent (meshes (heap w) m) = Some s
  end.
Proof.
  intros Hs Hne Hp. rewrite (boot_object_run _ _ _ _ sc) by done.
  rewrite Object3D_add_run. cbn [this heap].
  rewrite meshes_update_mesh, decide_True by done.
  change (THREE.Mesh.parent (THREE.Mesh.set_pickingColor _ ?x))
    with (THREE.Mesh.parent x).
  destruct w as [r h]. cbn [this heap] in *.
  destruct (THREE.Mesh.parent (meshes h (Object3D.mesh o))) as [p|] eqn:Hparent.
  - rewrite Object3D_remove_run. cbn [this heap].
    change (scenes (update_mesh ?m ?f ?h)) with (scenes h).
    destruct (THREE.Scene.children (scenes h p)) as [cp|] eqn:Hcp.
    + cbn [this heap]. destruct (decide (Object3D.mesh o ∈ cp)); cbn [this heap].
      * scenes_frame.
      * scenes_frame.
    + scenes_frame.
  - scenes_frame.
Qed.

Lemma boot_loop_scenes colorFromObjectID sc (s : SceneRef) objects :
  s ≠ sc →
  ∀ i w,
    _scene (this w) = Some sc →
    (∀ o, o ∈ objects → THREE.Mesh.parent (meshes (heap w) (Object3D.mesh o)) ≠ Some s) →
    match for_objects (_boot_object colorFromObjectID) i objects tt w with
    | Returns _ w' _ | Throws _ w' _ => scenes (heap w') s = scenes (heap w) s
    end.
Proof.
  intros Hne. induction objects as [|o objects IH]; intros i w Hs Hp.
  - simpl. by run.
  - cbn [for_objects]. unfold mbind at 1, M_bind at 1.
    pose proof (boot_object_scenes colorFromObjectID i o w sc s Hs Hne
                  (Hp o ltac:(left))) as Hstep.
    destruct (_boot_object colorFromObjectID i o tt w) as [[] w1 log1|e w1 log1];
      destruct Hstep as (Hthis & Hsc & Hpar); [|done].
    assert (Hs1 : _scene (this w1) = Some sc) by (by rewrite Hthis).
    specialize (IH (S i) w1 Hs1).
    destruct (for_objects _ _ _ _ _) as [[] w2 log2|e w2 log2];
      rewrite <- Hsc; apply IH; intros o' Hin Hp'; apply (Hp o'); try (by right);
      by apply Hpar.
Qed.

Lemma new_ObjectRenderer_scenes colorFromObjectID viewer objects h (s : SceneRef) :
  s ≠ next_scene h →
  (∀ o, o ∈ objects → THREE.Mesh.parent (meshes h (Object3D.mesh o)) ≠ Some s) →
  match new_ObjectRenderer colorFromObjectID viewer objects h with
  | Returns _ w _ | Throws _ w _ => scenes (heap w) s = scenes h s
  end.
Proof.
  intros Hne Hp. rewrite new_ObjectRenderer_run.
  pose proof (boot_loop_scenes colorFromObjectID (next_scene h) s objects Hne 0
                (mkWorld (mk (Some viewer) (Some (next_scene h)) (Some objects) None
                            UNDEFINED None) (snd (new_Scene h))) eq_refl Hp) as Hloop.
  destruct (for_objects _ _ _ _ _) as [[] w1 log1|e w1 log1]; cbn [heap] in *;
    rewrite Hloop; unfold new_Scene, upd; cbn; by rewrite decide_False.
Qed.

(** C7. When the meshes of the input list have pairwise distinct ids and
    [colorFromObjectID] maps those ids to pairwise distinct colours, the
    constructor returns exactly when [scene.add] can take every mesh out of
    the parent it has (the parent's [children] is not [null]); and an
    instance it returns has a scene with exactly the meshes of the list as
    children, as many as there are objects, every child carries a picking
    colour (the colour of its id), and the colours of the children are
    pairwise distinct. *)
Theorem boot_children_count_and_distinct_colors (colorFromObjectID : Z → Z)
    (viewer : Viewer.t) (objects : list Object3D.t) (h : Heap) :
  NoDup ((fun o => mesh_id h (Object3D.mesh o)) <$> objects) →
  (∀ o1 o2, o1 ∈ objects → o2 ∈ objects →
     colorFromObjectID (mesh_id h (Object3D.mesh o1))
     = colorFromObjectID (mesh_id h (Object3D.mesh o2)) →
     mesh_id h (Object3D.mesh o1) = mesh_id h (Object3D.mesh o2)) →
  ((∃ w, new_ObjectRenderer colorFromObjectID viewer objects h
         = Returns tt w [NewPicking])
   ↔ parents_alive h (next_scene h) objects)
  ∧ ∀ w log,
      new_ObjectRenderer colorFromObjectID viewer objects h = Returns tt w log →
      ∃ sc children,
        _objects (this w) = Some objects
        ∧ _scene (this w) = Some sc
        ∧ THREE.Scene.children (scenes (heap w) sc) = Some children
        ∧ children = Object3D.mesh <$> objects
        ∧ length children = length objects
        ∧ (∀ m, m ∈ children →
             THREE.Mesh.pickingColor (meshes (heap w) m)
             = Some (colorFromObjectID (mesh_id (heap w) m)))
        ∧ NoDup ((fun m => THREE.Mesh.pickingColor (meshes (heap w) m)) <$> children).
Proof.
  intros Hids Hinj.
  assert (Hmeshes : NoDup (Object3D.mesh <$> objects)).
  { apply (NoDup_fmap_1 (mesh_id h)). by rewrite <- list_fmap_compose. }
  pose proof (new_ObjectRenderer_spec colorFromObjectID viewer objects h) as Hspec.
  destruct (new_ObjectRenderer colorFromObjectID viewer objects h) as [[] w0 log0|e w0 log0].
  - destruct Hspec as (-> & Hthis & (c' & Hc' & _ & Heq) & Hcol & Hfields & _ & _ & _
                       & Halive & _).
    split; [split; [done|intros _; by eexists]|].
    intros w log [= <- <-]. exists (next_scene h), c'. rewrite Hthis. cbn.
    split; [done|]. split; [done|]. split; [done|].
    rewrite (Heq Hmeshes). split; [done|]. split; [by rewrite length_fmap|]. split.
    + intros m (o & -> & Hin)%list_elem_of_fmap. destruct (Hcol o Hin) as [-> _].
      unfold mesh_id. by destruct (Hfields (Object3D.mesh o)) as (-> & _).
    + rewrite <- list_fmap_compose.
      rewrite (list_fmap_ext _
                 (fun o => Some (colorFromObjectID (mesh_id h (Object3D.mesh o)))) objects).
      * apply NoDup_fmap_2_strong.
        -- intros o1 o2 Hin1 Hin2 [= Hc].
           pose proof (Hinj o1 o2 Hin1 Hin2 Hc) as Hid.
           by apply (NoDup_fmap_elem_inj (fun o => mesh_id h (Object3D.mesh o)) objects).
        -- by eapply NoDup_fmap_1.
      * intros i o Hi. cbn. apply Hcol. by eapply list_elem_of_lookup_2.
  - destruct Hspec as (_ & _ & _ & Hdead). split; [|by intros w log [=]].
    split; [by intros (w & [=])|]. intros Halive. by destruct Hdead.
Qed.

(** ** The empty instance *)

(** C5. When the object list is empty, and with it the scene that holds
    the meshes of the list, [render] returns without throwing, issues no
    call (no draw, no picking pass) and leaves the instance and the heap as
    they were: the cached viewport and view type are not updated. *)
Theorem render_empty_is_noop (w : World) (objects : list Object3D.t) (sc : SceneRef)
    (viewport : Viewport.t) (target : RenderTarget) :
  _objects (this w) = Some objects →
  _scene (this w) = Some sc →
  THREE.Scene.children (scenes (heap w) sc) = Some (Object3D.mesh <$> objects) →
  objects = [] →
  render viewport target w = Returns tt w []
  ∧ _lastViewport (this (world_of (render viewport target w))) = _lastViewport (this w)
  ∧ _lastViewType (this (world_of (render viewport target w))) = _lastViewType (this w).
Proof.
  intros Ho Hs Hch ->.
  assert (Hrender : render viewport target w = Returns tt w []).
  { unfold render. run. by rewrite Hs, Hch. }
  by rewrite Hrender.
Qed.

(** ** Destruction *)

(** C9. [destroy] on a live instance calls the picking manager's [destroy]
    and returns with the picking manager, the object list, the scene, the
    cached viewport and the viewer all set to [null] (the scene's children
    too).  A second [destroy] performs no picking call and does not throw
    there: the [null] test skips that step, and the exception it raises
    comes from the later access to [this._scene]. *)
Theorem destroy_clears_references_and_guards_picking (w : World) (viewer : Viewer.t)
    (objects : list Object3D.t) (sc : SceneRef) (picking : Picking.t) :
  _viewer (this w) = Some viewer →
  _objects (this w) = Some objects →
  _scene (this w) = Some sc →
  _picking (this w) = Some picking →
  ∃ w',
    destroy w = Returns tt w' [PickingDestroy; BaseObjectDestroy]
    ∧ _picking (this w') = None
    ∧ _objects (this w') = None
    ∧ _scene (this w') = None
    ∧ THREE.Scene.children (scenes (heap w') sc) = None
    ∧ _lastViewport (this w') = None
    ∧ _viewer (this w') = None
    ∧ destroy w' = Throws (TypeError "this._scene") w' [].
Proof.
  intros Hv Ho Hs Hp. destruct w as [[v s o lv lt p] h]. simpl in *. subst.
  eexists. split; [reflexivity|]. cbn.
  unfold upd. rewrite decide_True by done. done.
Qed.

(** ** The renewal gate *)

Lemma renew_needed_gate r viewport h object :
  renew_needed r viewport h object = true ↔ gate r viewport h object.
Proof.
  unfold renew_needed, gate.
  rewrite !orb_true_iff, !bool_decide_eq_true.
  destruct (_lastViewport r) as [last|].
  - rewrite bool_decide_eq_true. split.
    + intros [[[Huid|Hu]|Ht]|Htr]; eauto 10.
    + intros [[=]|[(last' & [= <-] & Huid)|[Hu|[Ht|Htr]]]]; eauto.
  - split; [by left|]. intros _. by repeat left.
Qed.

Lemma reconciled_mesh_other viewer r viewport object h m :
  m ≠ Object3D.mesh object →
  meshes (reconciled viewer r viewport object h) m = meshes h m.
Proof.
  intros Hm. unfold reconciled. rewrite refreshed_meshes.
  destruct (renew_needed r viewport h object); [|done].
  unfold renewed, update_mesh, upd. cbn. by rewrite !decide_False.
Qed.

Lemma reconciled_mesh_kept viewer r viewport object h m :
  renew_needed r viewport h object = false →
  meshes (reconciled viewer r viewport object h) m = meshes h m.
Proof. intros Hr. unfold reconciled. by rewrite refreshed_meshes, Hr. Qed.

Lemma reconciled_mesh_renewed viewer r viewport object h :
  renew_needed r viewport h object = true →
  meshes (reconciled viewer r viewport object h) (Object3D.mesh object)
  = THREE.Mesh.mk
      (THREE.Mesh.id (meshes h (Object3D.mesh object)))
      (THREE.Mesh.pickingColor (meshes h (Object3D.mesh object)))
      (bool_decide (View.type (Viewport.view_current viewport) = RECTILINEAR))
      (Viewer.getMaterialForView viewer (View.type (Viewport.view_current viewport))
         (shaderType_of (Object3D.material object))
         (HotspotMaterial.transparent (Object3D.material object)))
      (THREE.Mesh.parent (meshes h (Object3D.mesh object))).
Proof.
  intros Hr. unfold reconciled. rewrite refreshed_meshes, Hr.
  unfold renewed, update_mesh, upd. cbn. by rewrite !decide_True.
Qed.

(** The calls to [getMaterialForView] in the log of one [render]. *)
Lemma render_replacements w viewer objects sc viewport target :
  nonempty_orchestrator w viewer objects sc →
  ∃ log,
    render viewport target w =
      Returns tt
        (mkWorld
           (set_lastViewType (View.type (Viewport.view_current viewport))
              (set_lastViewport (Some viewport) (this w)))
           (heap_at viewport objects (length objects) w))
        log
    ∧ ∀ j viewType shaderType transparent,
        GetMaterialForView j viewType shaderType transparent ∈ log ↔
        ∃ object, objects !! j = Some object
          ∧ renew_needed (this w) viewport (heap_at viewport objects j w) object = true
          ∧ viewType = View.type (Viewport.view_current viewport)
          ∧ shaderType = shaderType_of (Object3D.material object)
          ∧ transparent = HotspotMaterial.transparent (Object3D.material object).
Proof.
  intros Hlive.
  destruct (render_spec w viewer objects sc viewport target Hlive)
    as (c & loop_log & Hrender & _ & Hlog).
  eexists. split; [exact Hrender|].
  intros j vt sh tr. rewrite elem_of_app, Hlog. split.
  - intros [(j' & object & Hj & He)|Hin].
    + apply reconcile_calls_elem in He as [[Hr [= -> -> -> ->]]|[=]]. eauto 10.
    + apply elem_of_app in Hin as [Hin|Hin].
      * by destruct c; [apply list_elem_of_singleton in Hin|apply elem_of_nil in Hin].
      * apply elem_of_cons in Hin as [[=]|Hin].
        by destruct (_ && _); [apply list_elem_of_singleton in Hin|apply elem_of_nil in Hin].
  - intros (object & Hj & Hr & -> & -> & ->). left. exists j, object.
    split; [done|]. apply reconcile_calls_elem. by left.
Qed.

(** ** Frustum culling *)

(** The flag of mesh [m] after the first [k] objects have been reconciled. *)
Lemma frustumCulled_at w viewer objects viewport (m : MeshRef) :
  _viewer (this w) = Some viewer →
  ∀ k, k ≤ length objects →
    ((∃ j object, j < k ∧ objects !! j = Some object ∧ Object3D.mesh object = m
        ∧ renew_needed (this w) viewport (heap_at viewport objects j w) object = true) →
     THREE.Mesh.frustumCulled (meshes (heap_at viewport objects k w) m)
     = bool_decide (View.type (Viewport.view_current viewport) = RECTILINEAR))
    ∧ ((∀ j object, j < k → objects !! j = Some object → Object3D.mesh object = m →
          renew_needed (this w) viewport (heap_at viewport objects j w) object = false) →
       THREE.Mesh.frustumCulled (meshes (heap_at viewport objects k w) m)
       = THREE.Mesh.frustumCulled (meshes (heap w) m)).
Proof.
  intros Hv. induction k as [|k IH]; intros Hk.
  - rewrite heap_at_0. split; [|done]. intros (j & ? & ? & _); lia.
  - destruct (lookup_lt_is_Some_2 objects k) as [o Ho]; [lia|].
    destruct IH as [IHyes IHno]; [lia|].
    rewrite (heap_at_S viewer _ _ _ o) by done.
    destruct (decide (m = Object3D.mesh o)) as [->|Hm];
      [destruct (renew_needed (this w) viewport (heap_at viewport objects k w) o) eqn:Hr|].
    + rewrite reconciled_mesh_renewed by done. cbn. split; [done|].
      intros Hno. by rewrite (Hno k o) in Hr by (done || lia).
    + rewrite reconciled_mesh_kept by done. split.
      * intros (j & object & Hj & Hobj & Hmesh & Hrj). apply IHyes.
        destruct (decide (j = k)) as [->|]; [congruence|].
        exists j, object. repeat split; (done || lia).
      * intros Hno. apply IHno. intros j object Hj. apply Hno. lia.
    + rewrite reconciled_mesh_other by done. split.
      * intros (j & object & Hj & Hobj & Hmesh & Hrj). apply IHyes.
        destruct (decide (j = k)) as [->|]; [congruence|].
        exists j, object. repeat split; (done || lia).
      * intros Hno. apply IHno. intros j object Hj. apply Hno. lia.
Qed.

(** ** A settled instance renews nothing *)

Lemma refreshed_transparent object h r :
  THREE.Material.transparent (mesh_material h (Object3D.mesh object))
  = HotspotMaterial.transparent (Object3D.material object) →
  THREE.Material.transparent (materials (refreshed object h) r)
  = THREE.Material.transparent (materials h r).
Proof.
  intros Htr. rewrite refreshed_materials. case_decide as Hr; [|done].
  subst r. cbn. by rewrite <- Htr.
Qed.

Lemma reconciled_scenes viewer r viewport object h :
  scenes (reconciled viewer r viewport object h) = scenes h.
Proof. unfold reconciled. by destruct (renew_needed r viewport h object). Qed.

Lemma heap_at_scenes w viewer objects viewport :
  _viewer (this w) = Some viewer →
  ∀ k, k ≤ length objects → scenes (heap_at viewport objects k w) = scenes (heap w).
Proof.
  intros Hv. induction k as [|k IH]; intros Hk; [by rewrite heap_at_0|].
  destruct (lookup_lt_is_Some_2 objects k) as [o Ho]; [lia|].
  rewrite (heap_at_S viewer _ _ _ o), reconciled_scenes by done. apply IH. lia.
Qed.

Lemma settled_not_gate w objects viewport h object :
  settled w objects viewport →
  THREE.Material.transparent (mesh_material h (Object3D.mesh object))
  = HotspotMaterial.transparent (Object3D.material object) →
  renew_needed (this w) viewport h object = false.
Proof.
  intros ((last & Hlast & Huid) & Htype & Hdef & _) Htr.
  apply not_true_is_false. rewrite renew_needed_gate. unfold gate.
  intros [Hnone|[(last' & Hlast' & Hne)|[Hu|[Hne|Hne]]]]; try congruence.
Qed.

Lemma settled_loop w viewer objects viewport :
  _viewer (this w) = Some viewer →
  settled w objects viewport →
  ∀ k, k ≤ length objects →
    meshes (heap_at viewport objects k w) = meshes (heap w)
    ∧ (∀ r, THREE.Material.transparent (materials (heap_at viewport objects k w) r)
            = THREE.Material.transparent (materials (heap w) r))
    ∧ ∀ j object, j < k → objects !! j = Some object →
        renew_needed (this w) viewport (heap_at viewport objects j w) object = false.
Proof.
  intros Hv Hsettled. induction k as [|k IH]; intros Hk.
  - rewrite heap_at_0. split; [done|]. split; [done|]. intros; lia.
  - destruct (lookup_lt_is_Some_2 objects k) as [o Ho]; [lia|].
    destruct IH as (Hmeshes & Hmats & Hprev); [lia|].
    assert (Htr : THREE.Material.transparent
                    (mesh_material (heap_at viewport objects k w) (Object3D.mesh o))
                  = HotspotMaterial.transparent (Object3D.material o)).
    { unfold mesh_material. rewrite Hmeshes, Hmats.
      destruct Hsettled as (_ & _ & _ & Hagree). apply Hagree.
      by eapply list_elem_of_lookup_2. }
    pose proof (settled_not_gate w objects viewport _ o Hsettled Htr) as Hr.
    rewrite (heap_at_S viewer _ _ _ o) by done.
    unfold reconciled. rewrite Hr. split; [|split].
    + by rewrite refreshed_meshes.
    + intros r. by rewrite refreshed_transparent.
    + intros j object Hj Hobj. destruct (decide (j = k)) as [->|]; [congruence|].
      apply Hprev; [lia|done].
Qed.

Lemma settled_render w viewer objects sc viewport target :
  nonempty_orchestrator w viewer objects sc →
  settled w objects viewport →
  ∃ w' log,
    render viewport target w = Returns tt w' log
    ∧ (∀ j, ¬ replaced_at j log)
    ∧ nonempty_orchestrator w' viewer objects sc
    ∧ settled w' objects viewport.
Proof.
  intros Hlive Hsettled.
  destruct (render_replacements w viewer objects sc viewport target Hlive)
    as (log & Hrender & Hlog).
  destruct Hlive as (Hv & Ho & Hp & Hs & children & Hch & Hne).
  destruct (settled_loop w viewer objects viewport Hv Hsettled (length objects))
    as (Hmeshes & Hmats & Hnone); [done|].
  eexists _, log. split; [exact Hrender|]. split; [|split].
  - intros j (vt & sh & tr & Hin). apply Hlog in Hin as (object & Hj & Hr & _).
    rewrite Hnone in Hr; [done| |done]. by eapply lookup_lt_Some.
  - repeat split; try done. exists children.
    cbn [heap]. by rewrite (heap_at_scenes w viewer).
  - destruct Hsettled as (_ & _ & Hdef & Hagree).
    split; [by exists viewport|]. split; [done|]. split; [done|].
    intros object Hin. cbn [heap]. unfold mesh_material.
    rewrite Hmeshes, Hmats. by apply Hagree.
Qed.

Lemma settled_frames viewer objects sc viewport target (n : nat) :
  ∀ w, nonempty_orchestrator w viewer objects sc →
       settled w objects viewport →
       ∃ w' log,
         render_frames (replicate n (viewport, target)) w = Returns tt w' log
         ∧ ∀ j, ¬ replaced_at j log.
Proof.
  induction n as [|n IH]; intros w Hlive Hsettled.
  - exists w, []. split; [done|]. intros j (? & ? & ? & ?%elem_of_nil). done.
  - destruct (settled_render w viewer objects sc viewport target Hlive Hsettled)
      as (w1 & log1 & Hrender & Hnone1 & Hlive1 & Hsettled1).
    destruct (IH w1 Hlive1 Hsettled1) as (w2 & log2 & Hframes & Hnone2).
    exists w2, (log1 ++ log2). split.
    + cbn [replicate render_frames fst snd]. unfold mbind, M_bind.
      by rewrite Hrender, Hframes.
    + intros j (vt & sh & tr & [Hin|Hin]%elem_of_app).
      * apply (Hnone1 j). by exists vt, sh, tr.
      * apply (Hnone2 j). by exists vt, sh, tr.
Qed.

(** ** Frustum culling across frames *)

Lemma render_culling w viewer objects sc viewport target :
  nonempty_orchestrator w viewer objects sc →
  ∃ w' log,
    render viewport target w = Returns tt w' log
    ∧ nonempty_orchestrator w' viewer objects sc
    ∧ ∀ m : MeshRef,
        ((∃ j object, objects !! j = Some object ∧ Object3D.mesh object = m
                      ∧ replaced_at j log) →
         (THREE.Mesh.frustumCulled (meshes (heap w') m) = true
          ↔ View.type (Viewport.view_current viewport) = RECTILINEAR))
        ∧ ((∀ j object, objects !! j = Some object → Object3D.mesh object = m →
                        ¬ replaced_at j log) →
           THREE.Mesh.frustumCulled (meshes (heap w') m)
           = THREE.Mesh.frustumCulled (meshes (heap w) m)).
Proof.
  intros Hlive.
  destruct (render_replacements w viewer objects sc viewport target Hlive)
    as (log & Hrender & Hlog).
  destruct Hlive as (Hv & Ho & Hp & Hs & children & Hch & Hne).
  eexists _, log. split; [exact Hrender|]. cbn [heap]. split.
  { repeat split; try done. exists children.
    cbn [heap]. by rewrite (heap_at_scenes w viewer). }
  intros m.
  destruct (frustumCulled_at w viewer objects viewport m Hv (length objects))
    as [Hyes Hno]; [done|].
  split.
  - intros (j & object & Hj & Hm & vt & sh & tr & Hin).
    apply Hlog in Hin as (object' & Hj' & Hr & _).
    rewrite Hyes, bool_decide_eq_true; [done|].
    exists j, object. pose proof (lookup_lt_Some _ _ _ Hj). by simplify_eq.
  - intros Hnone. apply Hno. intros j object _ Hj Hm.
    destruct (renew_needed (this w) viewport (heap_at viewport objects j w) object)
      eqn:Hr; [|done].
    exfalso. apply (Hnone j object Hj Hm).
    eexists _, _, _. apply Hlog. eauto 10.
Qed.

Lemma replaced_at_app j log1 log2 :
  replaced_at j (log1 ++ log2) ↔ replaced_at j log1 ∨ replaced_at j log2.
Proof.
  unfold replaced_at. split.
  - intros (vt & sh & tr & [Hin|Hin]%elem_of_app); [left|right]; eauto.
  - intros [(vt & sh & tr & Hin)|(vt & sh & tr & Hin)];
      exists vt, sh, tr; apply elem_of_app; eauto.
Qed.

(** Frames that do not replace the material of a mesh leave its flag. *)
Lemma frames_keep_culling viewer objects sc (m : MeshRef) frames :
  ∀ w, nonempty_orchestrator w viewer objects sc →
    ∃ w' log,
      render_frames frames w = Returns tt w' log
      ∧ ((∀ j object, objects !! j = Some object → Object3D.mesh object = m →
                      ¬ replaced_at j log) →
         THREE.Mesh.frustumCulled (meshes (heap w') m)
         = THREE.Mesh.frustumCulled (meshes (heap w) m)).
Proof.
  induction frames as [|[viewport target] frames IH]; intros w Hlive.
  - by exists w, [].
  - destruct (render_culling w viewer objects sc viewport target Hlive)
      as (w1 & log1 & Hrender & Hlive1 & Hall).
    destruct (IH w1 Hlive1) as (w2 & log2 & Hframes & Hkeep).
    exists w2, (log1 ++ log2). split.
    + cbn [render_frames fst snd]. unfold mbind, M_bind. by rewrite Hrender, Hframes.
    + intros Hnone. rewrite Hkeep.
      * apply (Hall m). intros j object Hj Hm Hrep.
        apply (Hnone j object Hj Hm), replaced_at_app. by left.
      * intros j object Hj Hm Hrep.
        apply (Hnone j object Hj Hm), replaced_at_app. by right.
Qed.

(** C6. After a [render] call that replaced the material of a mesh, the
    mesh's [frustumCulled] flag is set if and only if the view type of that
    call is [RECTILINEAR], and the frames that follow leave the flag as it is
    as long as they do not replace the material of that mesh. *)
Theorem render_frustum_culling_iff_rectilinear (w : World) (viewer : Viewer.t)
    (objects : list Object3D.t) (sc : SceneRef)
    (viewport : Viewport.t) (target : RenderTarget) :
  nonempty_orchestrator w viewer objects sc →
  ∃ w' log,
    render viewport target w = Returns tt w' log
    ∧ ∀ m : MeshRef,
        (∃ j object, objects !! j = Some object ∧ Object3D.mesh object = m
                     ∧ replaced_at j log) →
        (THREE.Mesh.frustumCulled (meshes (heap w') m) = true
         ↔ View.type (Viewport.view_current viewport) = RECTILINEAR)
        ∧ ∀ frames, ∃ w'' log',
            render_frames frames w' = Returns tt w'' log'
            ∧ ((∀ j object, objects !! j = Some object → Object3D.mesh object = m →
                            ¬ replaced_at j log') →
               (THREE.Mesh.frustumCulled (meshes (heap w'') m) = true
                ↔ View.type (Viewport.view_current viewport) = RECTILINEAR)).
Proof.
  intros Hlive.
  destruct (render_culling w viewer objects sc viewport target Hlive)
    as (w' & log & Hrender & Hlive' & Hall).
  exists w', log. split; [exact Hrender|].
  intros m Hreplaced. pose proof (proj1 (Hall m) Hreplaced) as Hflag.
  split; [exact Hflag|]. intros frames.
  destruct (frames_keep_culling viewer objects sc m frames w' Hlive')
    as (w'' & log' & Hframes & Hkeep).
  exists w'', log'. split; [exact Hframes|].
  intros Hnone. by rewrite (Hkeep Hnone).
Qed.

(** ** The frame after a change of viewport or view settles the instance *)

Lemma reconciled_materials_renewed viewer r viewport object h (m : MatRef) :
  renew_needed r viewport h object = true →
  let variant :=
    Viewer.getMaterialForView viewer (View.type (Viewport.view_current viewport))
      (shaderType_of (Object3D.material object))
      (HotspotMaterial.transparent (Object3D.material object)) in
  THREE.Material.transparent (materials (reconciled viewer r viewport object h) m)
  = if decide (m = variant)
    then HotspotMaterial.transparent (Object3D.material object)
    else THREE.Material.transparent (materials h m).
Proof.
  intros Hr variant. unfold reconciled. rewrite Hr, refreshed_materials.
  assert (Hv : THREE.Mesh.material
                 (meshes (renewed viewer (Viewport.view_current viewport) object h)
                    (Object3D.mesh object)) = variant).
  { unfold renewed, update_mesh, upd. cbn. by rewrite !decide_True. }
  rewrite Hv. by case_decide.
Qed.

Lemma changed_loop w viewer objects viewport :
  _viewer (this w) = Some viewer →
  viewport_changed (this w) viewport →
  NoDup (Object3D.mesh <$> objects) →
  keyed_by_transparency viewer →
  ∀ k, k ≤ length objects →
    ∀ j object, j < k → objects !! j = Some object →
      let variant :=
        Viewer.getMaterialForView viewer (View.type (Viewport.view_current viewport))
          (shaderType_of (Object3D.material object))
          (HotspotMaterial.transparent (Object3D.material object)) in
      THREE.Mesh.material (meshes (heap_at viewport objects k w) (Object3D.mesh object))
      = variant
      ∧ THREE.Material.transparent (materials (heap_at viewport objects k w) variant)
        = HotspotMaterial.transparent (Object3D.material object).
Proof.
  intros Hv Hchanged Hnd Hkeyed.
  assert (Hgate : ∀ h object, renew_needed (this w) viewport h object = true).
  { intros h object. apply renew_needed_gate. unfold gate.
    destruct Hchanged as [?|[?|[?|?]]]; eauto. }
  induction k as [|k IH]; intros Hk j object Hj Hobj variant; [lia|].
  destruct (lookup_lt_is_Some_2 objects k) as [o Ho]; [lia|].
  rewrite (heap_at_S viewer _ _ _ o) by done.
  rewrite reconciled_materials_renewed by done.
  destruct (decide (j = k)) as [->|Hjk].
  - assert (o = object) as -> by congruence.
    rewrite reconciled_mesh_renewed by done. cbn. split; [done|].
    by rewrite decide_True.
  - destruct (IH ltac:(lia) j object ltac:(lia) Hobj) as [Hmat Htr].
    assert (Hmesh : Object3D.mesh object ≠ Object3D.mesh o).
    { intros Heq. apply Hjk.
      apply (NoDup_lookup (Object3D.mesh <$> objects) j k (Object3D.mesh object) Hnd).
      - by rewrite list_lookup_fmap, Hobj.
      - by rewrite list_lookup_fmap, Ho, Heq. }
    rewrite reconciled_mesh_other by done. split; [done|].
    case_decide as Hsame; [|done].
    destruct (HotspotMaterial.transparent (Object3D.material object)) eqn:Ht1,
             (HotspotMaterial.transparent (Object3D.material o)) eqn:Ht2; try done.
    + exfalso. eapply Hkeyed. unfold variant in Hsame. exact Hsame.
    + exfalso. eapply Hkeyed. unfold variant in Hsame. symmetry. exact Hsame.
Qed.

(** On an instance whose meshes are pairwise distinct, with a renderer
    facility keyed by transparency, the frame that follows a change of
    viewport or view (the first frame in particular) leaves the instance
    settled, provided the view type is not [UNDEFINED]. *)
Lemma frame_after_change_settles w viewer objects sc viewport target :
  nonempty_orchestrator w viewer objects sc →
  viewport_changed (this w) viewport →
  View.type (Viewport.view_current viewport) ≠ UNDEFINED →
  NoDup (Object3D.mesh <$> objects) →
  keyed_by_transparency viewer →
  ∃ w' log,
    render viewport target w = Returns tt w' log
    ∧ nonempty_orchestrator w' viewer objects sc
    ∧ settled w' objects viewport.
Proof.
  intros Hlive Hchanged Hdef Hnd Hkeyed.
  destruct (render_replacements w viewer objects sc viewport target Hlive)
    as (log & Hrender & _).
  destruct Hlive as (Hv & Ho & Hp & Hs & children & Hch & Hne).
  eexists _, log. split; [exact Hrender|]. split.
  - repeat split; try done. exists children.
    cbn [heap]. by rewrite (heap_at_scenes w viewer).
  - split; [by exists viewport|]. split; [done|]. split; [done|].
    intros object (j & Hj)%list_elem_of_lookup. cbn [heap].
    destruct (changed_loop w viewer objects viewport Hv Hchanged Hnd Hkeyed
                (length objects) ltac:(done) j object) as [Hmat Htr];
      [by eapply lookup_lt_Some|done|].
    unfold mesh_material. by rewrite Hmat.
Qed.

(** C1 (amended). On a non-empty instance [render] returns, and for every
    object of the list the material of its mesh is replaced, by the result
    of [getMaterialForView] on the view type, the shading kind of the
    object's material type and the object's transparency, if and only if no
    viewport is recorded, or the recorded viewport has another [uid], or the
    recorded view type is [UNDEFINED], or it differs from the current view
    type, or the object's transparency differs from that of the material
    assigned to the mesh; otherwise the reference stays.  Hence, once the
    viewport and a view type other than [UNDEFINED] are recorded and every
    mesh is assigned a material of its object's transparency, any number of
    further [render] calls for that viewport replace no material. *)
Theorem render_replaces_material_iff_gate (w : World) (viewer : Viewer.t)
    (objects : list Object3D.t) (sc : SceneRef)
    (viewport : Viewport.t) (target : RenderTarget) :
  nonempty_orchestrator w viewer objects sc →
  let viewType := View.type (Viewport.view_current viewport) in
  (∃ w' log,
     render viewport target w = Returns tt w' log
     ∧ ∀ j object, objects !! j = Some object →
         let h := heap_at viewport objects j w in
         let h' := heap_at viewport objects (S j) w in
         let variant :=
           Viewer.getMaterialForView viewer viewType
             (shaderType_of (Object3D.material object))
             (HotspotMaterial.transparent (Object3D.material object)) in
         (replaced_at j log ↔ gate (this w) viewport h object)
         ∧ (∀ vt sh tr, GetMaterialForView j vt sh tr ∈ log →
              vt = viewType ∧ sh = shaderType_of (Object3D.material object)
              ∧ tr = HotspotMaterial.transparent (Object3D.material object))
         ∧ (gate (this w) viewport h object →
              THREE.Mesh.material (meshes h' (Object3D.mesh object)) = variant)
         ∧ (¬ gate (this w) viewport h object →
              THREE.Mesh.material (meshes h' (Object3D.mesh object))
              = THREE.Mesh.material (meshes h (Object3D.mesh object))))
  ∧ (settled w objects viewport →
     ∀ n, ∃ w' log,
       render_frames (replicate n (viewport, target)) w = Returns tt w' log
       ∧ ∀ j, ¬ replaced_at j log).
Proof.
  intros Hlive viewType. split.
  - destruct (render_replacements w viewer objects sc viewport target Hlive)
      as (log & Hrender & Hlog).
    destruct Hlive as (Hv & _).
    eexists _, log. split; [exact Hrender|].
    intros j object Hj h h' variant.
    assert (Hh' : h' = reconciled viewer (this w) viewport object h)
      by (by apply heap_at_S).
    split; [|split; [|split]].
    + rewrite <- renew_needed_gate. split.
      * intros (vt & sh & tr & Hin). apply Hlog in Hin as (object' & Hj' & Hr & _).
        by simplify_eq.
      * intros Hr. eexists _, _, _. apply Hlog. eauto 10.
    + intros vt sh tr Hin. apply Hlog in Hin as (object' & Hj' & _ & -> & -> & ->).
      by simplify_eq.
    + intros Hr%renew_needed_gate. by rewrite Hh', reconciled_mesh_renewed.
    + rewrite <- renew_needed_gate. intros Hr%not_true_is_false.
      by rewrite Hh', reconciled_mesh_kept.
  - intros Hsettled n. by eapply settled_frames.
Qed.

(** * The properties on the sample scene *)

Lemma sample_world_nonempty :
  nonempty_orchestrator sample_world sample_viewer sample_objects 0.
Proof.
  repeat split; [by eexists|]. exists [1; 2; 3]. split; [reflexivity|discriminate].
Qed.

Lemma rendered_world_nonempty viewType :
  nonempty_orchestrator (rendered_world viewType) sample_viewer sample_objects 0.
Proof.
  repeat split; [by eexists|]. exists [1; 2; 3]. split; [reflexivity|discriminate].
Qed.

Lemma rendered_world_agrees viewType object :
  object ∈ sample_objects →
  THREE.Material.transparent
    (mesh_material (heap (rendered_world viewType)) (Object3D.mesh object))
  = HotspotMaterial.transparent (Object3D.material object).
Proof.
  intros Hin. unfold sample_objects in Hin.
  repeat (apply elem_of_cons in Hin as [->|Hin]); [reflexivity..|].
  by apply elem_of_nil in Hin.
Qed.

(** After a first frame in the rectilinear view the instance is settled, and
    three more frames for the same viewport replace no material. *)
Lemma render_replaces_material_iff_gate_witness :
  nonempty_orchestrator (rendered_world RECTILINEAR) sample_viewer sample_objects 0
  ∧ settled (rendered_world RECTILINEAR) sample_objects (sample_viewport RECTILINEAR)
  ∧ ∃ w' log,
      render_frames (replicate 3 (sample_viewport RECTILINEAR, 0))
        (rendered_world RECTILINEAR) = Returns tt w' log
      ∧ ∀ j, ¬ replaced_at j log.
Proof.
  assert (Hsettled : settled (rendered_world RECTILINEAR) sample_objects
                       (sample_viewport RECTILINEAR)).
  { split; [by eexists|]. split; [reflexivity|]. split; [discriminate|].
    apply rendered_world_agrees. }
  split; [apply rendered_world_nonempty|]. split; [exact Hsettled|].
  exact (proj2 (render_replaces_material_iff_gate (rendered_world RECTILINEAR)
                  sample_viewer sample_objects 0 (sample_viewport RECTILINEAR) 0
                  (rendered_world_nonempty RECTILINEAR)) Hsettled 3).
Defined.

(** Two frames for one viewport whose view type is [UNDEFINED]: a viewport
    and a view type are recorded by the first, nothing changes in between,
    every mesh is assigned a material of its object's transparency, and the
    second frame still replaces the material of the first object. *)
Lemma render_twice_undefined_view_replaces :
  nonempty_orchestrator sample_world sample_viewer sample_objects 0
  ∧ _lastViewport (this (rendered_world UNDEFINED)) = Some (sample_viewport UNDEFINED)
  ∧ _lastViewType (this (rendered_world UNDEFINED))
    = View.type (Viewport.view_current (sample_viewport UNDEFINED))
  ∧ (∀ object, object ∈ sample_objects →
       THREE.Material.transparent
         (mesh_material (heap (rendered_world UNDEFINED)) (Object3D.mesh object))
       = HotspotMaterial.transparent (Object3D.material object))
  ∧ ∃ w' log,
      render (sample_viewport UNDEFINED) 0 (rendered_world UNDEFINED) = Returns tt w' log
      ∧ replaced_at 0 log.
Proof.
  split; [apply sample_world_nonempty|]. split; [reflexivity|]. split; [reflexivity|].
  split; [apply rendered_world_agrees|].
  eexists _, _. split; [vm_compute; reflexivity|].
  exists UNDEFINED, "color"%string, true. left.
Qed.


(** Mesh 2 belongs to an object that is ready but not interactive: not
    found. *)
Lemma getPickableObjectWithId_exact_witness :
  _objects (this sample_world) = Some sample_objects
  ∧ getPickableObjectWithId 2 sample_world = Returns None sample_world [].
Proof.
  split; [reflexivity|].
  destruct (getPickableObjectWithId_exact sample_world sample_objects 2 eq_refl)
    as (found & Hget & _ & _ & _ & _ & Hnone & _).
  rewrite Hget. f_equal. apply Hnone.
  intros o Hin Hid [Hr Hi]. unfold sample_objects in Hin.
  repeat (apply elem_of_cons in Hin as [->|Hin]); try discriminate.
  by apply elem_of_nil in Hin.
Defined.

(** The viewport is the active one and the first object is pickable. *)
Lemma render_picking_iff_active_and_pickable_witness :
  nonempty_orchestrator sample_world sample_viewer sample_objects 0
  ∧ ∃ w' log,
      render (sample_viewport RECTILINEAR) 0 sample_world = Returns tt w' log
      ∧ PickingRender (sample_viewport RECTILINEAR) ∈ log.
Proof.
  split; [apply sample_world_nonempty|].
  destruct (render_picking_iff_active_and_pickable sample_world sample_viewer
              sample_objects 0 (sample_viewport RECTILINEAR) 0 sample_world_nonempty)
    as (w' & log & Hrender & Hiff & _).
  exists w', log. split; [exact Hrender|]. apply Hiff. split.
  - by eexists.
  - exists hotspot_a. split; [left|done].
Defined.

Lemma render_empty_is_noop_witness :
  render (sample_viewport RECTILINEAR) 0 empty_world = Returns tt empty_world [].
Proof.
  exact (proj1 (render_empty_is_noop empty_world [] 0 (sample_viewport RECTILINEAR) 0
                  eq_refl eq_refl eq_refl eq_refl)).
Defined.

(** A frame in the rectilinear view renews mesh 1 and enables its culling. *)
Lemma render_frustum_culling_iff_rectilinear_witness :
  nonempty_orchestrator sample_world sample_viewer sample_objects 0
  ∧ ∃ w' log,
      render (sample_viewport RECTILINEAR) 0 sample_world = Returns tt w' log
      ∧ THREE.Mesh.frustumCulled (meshes (heap w') 1) = true.
Proof.
  split; [apply sample_world_nonempty|].
  destruct (render_frustum_culling_iff_rectilinear sample_world sample_viewer
              sample_objects 0 (sample_viewport RECTILINEAR) 0 sample_world_nonempty)
    as (w' & log & Hrender & Hall).
  exists w', log. split; [exact Hrender|].
  refine (proj2 (proj1 (Hall 1 _)) eq_refl).
  exists 0, hotspot_a. split; [done|]. split; [done|].
  exists RECTILINEAR, "color"%string, true.
  assert (Hlog : log = log_of (render (sample_viewport RECTILINEAR) 0 sample_world))
    by (by rewrite Hrender).
  rewrite Hlog. vm_compute. left.
Defined.

Lemma boot_children_count_and_distinct_colors_witness :
  ∃ w sc children,
    new_ObjectRenderer sample_color sample_viewer sample_objects sample_heap
    = Returns tt w [NewPicking]
    ∧ THREE.Scene.children (scenes (heap w) sc) = Some children
    ∧ length children = 3
    ∧ NoDup ((fun m => THREE.Mesh.pickingColor (meshes (heap w) m)) <$> children).
Proof.
  destruct (boot_children_count_and_distinct_colors sample_color sample_viewer
              sample_objects sample_heap) as [Hreturns Hbooted].
  - apply (bool_decide_unpack _). by vm_compute.
  - intros o1 o2 _ _. unfold sample_color. lia.
  - destruct (proj2 Hreturns) as [w Hnew]; [intros o p _ Hp; discriminate Hp|].
    destruct (Hbooted w _ Hnew) as (sc & children & _ & _ & Hch & _ & Hlen & _ & Hnd).
    exists w, sc, children.
    split; [exact Hnew|]. split; [exact Hch|]. split; [exact Hlen|exact Hnd].
Defined.

(** No material of the sample scene is compiled before the first frame. *)
Lemma render_compiles_iff_uncompiled_witness :
  nonempty_orchestrator sample_world sample_viewer sample_objects 0
  ∧ ∃ w' log,
      render (sample_viewport RECTILINEAR) 0 sample_world = Returns tt w' log
      ∧ WebGLCompile 0 7 ∈ log.
Proof.
  split; [apply sample_world_nonempty|].
  destruct (render_compiles_iff_uncompiled sample_world sample_viewer
              sample_objects 0 (sample_viewport RECTILINEAR) 0 sample_world_nonempty)
    as (w' & log & Hrender & Hiff & _).
  exists w', log. split; [exact Hrender|]. apply Hiff.
  by exists 0, hotspot_a.
Defined.

Lemma destroy_clears_references_and_guards_picking_witness :
  ∃ w',
    destroy sample_world = Returns tt w' [PickingDestroy; BaseObjectDestroy]
    ∧ _objects (this w') = None
    ∧ destroy w' = Throws (TypeError "this._scene") w' [].
Proof.
  destruct (destroy_clears_references_and_guards_picking sample_world sample_viewer
              sample_objects 0 (Picking.mk (Some sample_viewer))
              eq_refl eq_refl eq_refl eq_refl)
    as (w' & Hdestroy & _ & Ho & _ & _ & _ & _ & Hagain).
  by exists w'.
Defined.

(** Two pickable objects on mesh 1: the earlier one is returned. *)
Lemma getPickableObjectWithId_earliest_witness :
  getPickableObjectWithId 1 twin_world = Returns (Some hotspot_a) twin_world [].
Proof.
  apply (getPickableObjectWithId_earliest twin_world
           [hotspot_b; hotspot_a; hotspot_a'] 1 1 hotspot_a);
    try reflexivity.
  intros j o' Hj Hlt (_ & Hi & _).
  destruct j as [|j]; [|lia]. injection Hj as <-. discriminate.
Defined.

(** * Further properties of the renderer *)

(** ** What one iteration leaves alone *)

Lemma heap_at_ind w viewer objects viewport (P : Heap → Prop) :
  _viewer (this w) = Some viewer →
  P (heap w) →
  (∀ j object h, objects !! j = Some object → h = heap_at viewport objects j w →
     P h → P (reconciled viewer (this w) viewport object h)) →
  ∀ k, k ≤ length objects → P (heap_at viewport objects k w).
Proof.
  intros Hv H0 Hstep. induction k as [|k IH]; intros Hk; [by rewrite heap_at_0|].
  destruct (lookup_lt_is_Some_2 objects k) as [o Ho]; [lia|].
  rewrite (heap_at_S viewer _ _ _ o) by done.
  apply (Hstep k); [done..|]. apply IH. lia.
Qed.

Lemma reconciled_mesh_identity viewer r viewport object h m :
  THREE.Mesh.id (meshes (reconciled viewer r viewport object h) m)
  = THREE.Mesh.id (meshes h m)
  ∧ THREE.Mesh.pickingColor (meshes (reconciled viewer r viewport object h) m)
    = THREE.Mesh.pickingColor (meshes h m).
Proof.
  destruct (decide (m = Object3D.mesh object)) as [->|Hm];
    [|by rewrite reconciled_mesh_other].
  destruct (renew_needed r viewport h object) eqn:Hr.
  - by rewrite reconciled_mesh_renewed.
  - by rewrite reconciled_mesh_kept.
Qed.

Lemma reconciled_next_scene viewer r viewport object h :
  next_scene (reconciled viewer r viewport object h) = next_scene h.
Proof. unfold reconciled. by destruct (renew_needed r viewport h object). Qed.

(** ** What one frame, and any number of frames, leave alone *)

Lemma render_frame w viewer objects sc viewport target :
  nonempty_orchestrator w viewer objects sc →
  ∃ w' log,
    render viewport target w = Returns tt w' log
    ∧ nonempty_orchestrator w' viewer objects sc
    ∧ this w' = set_lastViewType (View.type (Viewport.view_current viewport))
                  (set_lastViewport (Some viewport) (this w))
    ∧ heap w' = heap_at viewport objects (length objects) w
    ∧ scenes (heap w') = scenes (heap w)
    ∧ next_scene (heap w') = next_scene (heap w)
    ∧ (∀ m, THREE.Mesh.id (meshes (heap w') m) = THREE.Mesh.id (meshes (heap w) m)
            ∧ THREE.Mesh.pickingColor (meshes (heap w') m)
              = THREE.Mesh.pickingColor (meshes (heap w) m))
    ∧ (∀ m, (∀ o, o ∈ objects → Object3D.mesh o ≠ m) →
            meshes (heap w') m = meshes (heap w) m)
    ∧ (∀ r, THREE.Material.program (materials (heap w') r)
            = THREE.Material.program (materials (heap w) r)
            ∧ THREE.Material.uniforms (materials (heap w') r)
              = THREE.Material.uniforms (materials (heap w) r)).
Proof.
  intros Hlive.
  destruct (render_replacements w viewer objects sc viewport target Hlive)
    as (log & Hrender & _).
  destruct Hlive as (Hv & Ho & Hp & Hs & children & Hch & Hne).
  eexists _, log. split; [exact Hrender|]. cbn [this heap].
  split; [|split; [done|split; [done|]]].
  { repeat split; try done. exists children.
    cbn [heap]. by rewrite (heap_at_scenes w viewer). }
  split; [by apply (heap_at_scenes w viewer)|].
  split; [|split; [|split]].
  - apply (heap_at_ind w viewer objects viewport
             (fun h => next_scene h = next_scene (heap w))); [done..| |done].
    intros j o h _ _ IH. by rewrite reconciled_next_scene.
  - intros m.
    apply (heap_at_ind w viewer objects viewport
             (fun h => THREE.Mesh.id (meshes h m) = THREE.Mesh.id (meshes (heap w) m)
                       ∧ THREE.Mesh.pickingColor (meshes h m)
                         = THREE.Mesh.pickingColor (meshes (heap w) m)));
      [done..| |done].
    intros j o h _ _ [IH1 IH2].
    destruct (reconciled_mesh_identity viewer (this w) viewport o h m) as [-> ->].
    done.
  - intros m Hm.
    apply (heap_at_ind w viewer objects viewport
             (fun h => meshes h m = meshes (heap w) m)); [done..| |done].
    intros j o h Hj _ IH. rewrite reconciled_mesh_other; [done|].
    intros ->. eapply (Hm o); [by eapply list_elem_of_lookup_2|done].
  - intros r.
    apply (heap_at_ind w viewer objects viewport
             (fun h => THREE.Material.program (materials h r)
                       = THREE.Material.program (materials (heap w) r)
                       ∧ THREE.Material.uniforms (materials h r)
                         = THREE.Material.uniforms (materials (heap w) r)));
      [done..| |done].
    intros j o h _ _ [IH1 IH2]. rewrite reconciled_materials. by case_decide.
Qed.

Lemma frames_frame viewer objects sc frames :
  ∀ w, nonempty_orchestrator w viewer objects sc →
    ∃ w' log,
      render_frames frames w = Returns tt w' log
      ∧ nonempty_orchestrator w' viewer objects sc
      ∧ scenes (heap w') = scenes (heap w)
      ∧ (∀ m, THREE.Mesh.id (meshes (heap w') m) = THREE.Mesh.id (meshes (heap w) m)
              ∧ THREE.Mesh.pickingColor (meshes (heap w') m)
                = THREE.Mesh.pickingColor (meshes (heap w) m))
      ∧ (∀ m, (∀ o, o ∈ objects → Object3D.mesh o ≠ m) →
              meshes (heap w') m = meshes (heap w) m)
      ∧ (∀ r, THREE.Material.program (materials (heap w') r)
              = THREE.Material.program (materials (heap w) r)
              ∧ THREE.Material.uniforms (materials (heap w') r)
                = THREE.Material.uniforms (materials (heap w) r)).
Proof.
  induction frames as [|[viewport target] frames IH]; intros w Hlive.
  - by exists w, [].
  - destruct (render_frame w viewer objects sc viewport target Hlive)
      as (w1 & log1 & Hrender & Hlive1 & _ & _ & Hsc1 & _ & Hid1 & Hother1 & Hmat1).
    destruct (IH w1 Hlive1) as (w2 & log2 & Hframes & Hlive2 & Hsc2 & Hid2 & Hother2 & Hmat2).
    exists w2, (log1 ++ log2). split.
    { cbn [render_frames fst snd]. unfold mbind, M_bind. by rewrite Hrender, Hframes. }
    split; [done|]. split; [by rewrite Hsc2|]. split; [|split].
    + intros m. destruct (Hid1 m) as [<- <-]. apply Hid2.
    + intros m Hm. by rewrite Hother2, Hother1.
    + intros r. destruct (Hmat1 r) as [<- <-]. apply Hmat2.
Qed.

(** X3. Whatever frames are rendered on a non-empty instance, no mesh
    changes its id or its picking colour, a mesh that belongs to no object of
    the list is not written at all, and no scene changes its children. *)
Theorem frames_keep_ids_colors_and_scenes (w : World) (viewer : Viewer.t)
    (objects : list Object3D.t) (sc : SceneRef)
    (frames : list (Viewport.t * RenderTarget)) :
  nonempty_orchestrator w viewer objects sc →
  ∃ w' log,
    render_frames frames w = Returns tt w' log
    ∧ scenes (heap w') = scenes (heap w)
    ∧ (∀ m, THREE.Mesh.id (meshes (heap w') m) = THREE.Mesh.id (meshes (heap w) m)
            ∧ THREE.Mesh.pickingColor (meshes (heap w') m)
              = THREE.Mesh.pickingColor (meshes (heap w) m))
    ∧ (∀ m, (∀ o, o ∈ objects → Object3D.mesh o ≠ m) →
            meshes (heap w') m = meshes (heap w) m).
Proof.
  intros Hlive.
  destruct (frames_frame viewer objects sc frames w Hlive)
    as (w' & log & Hframes & _ & Hsc & Hid & Hother & _).
  by exists w', log.
Qed.

(** X5. Rendering does not disturb the queries: after any frames on a
    non-empty instance, [all] and [scene] return what they returned before
    and [getPickableObjectWithId] finds the same object for every id. *)
Theorem frames_keep_queries (w : World) (viewer : Viewer.t)
    (objects : list Object3D.t) (sc : SceneRef)
    (frames : list (Viewport.t * RenderTarget)) :
  nonempty_orchestrator w viewer objects sc →
  ∃ w' log,
    render_frames frames w = Returns tt w' log
    ∧ all w = Returns (Some objects) w [] ∧ all w' = Returns (Some objects) w' []
    ∧ scene w = Returns (Some sc) w [] ∧ scene w' = Returns (Some sc) w' []
    ∧ ∀ id, ∃ found,
        getPickableObjectWithId id w = Returns found w []
        ∧ getPickableObjectWithId id w' = Returns found w' [].
Proof.
  intros Hlive.
  destruct (frames_frame viewer objects sc frames w Hlive)
    as (w' & log & Hframes & Hlive' & _ & Hid & _).
  destruct Hlive as (_ & Ho & _ & Hs & _). destruct Hlive' as (_ & Ho' & _ & Hs' & _).
  exists w', log. split; [done|].
  unfold all, scene. run. rewrite Ho, Ho', Hs, Hs'. repeat split.
  intros id. eexists. split; [by apply getPickableObjectWithId_returns|].
  rewrite (getPickableObjectWithId_returns w' objects id Ho'). do 2 f_equal.
  apply list_find_ext. intros o. unfold mesh_id. by destruct (Hid (Object3D.mesh o)) as [-> _].
Qed.

(** ** Materials: who writes them, and whose attributes they end up with *)

(** X4. A material that is assigned to no mesh of the list when that
    mesh's iteration ends keeps the side, the transparency and the opacity
    it had when [render] was called: the three attribute writes of the loop
    go to assigned materials only. *)
Theorem render_writes_only_assigned_materials (w : World) (viewer : Viewer.t)
    (objects : list Object3D.t) (sc : SceneRef)
    (viewport : Viewport.t) (target : RenderTarget) :
  nonempty_orchestrator w viewer objects sc →
  ∃ w' log,
    render viewport target w = Returns tt w' log
    ∧ ∀ r, (∀ j object, objects !! j = Some object →
              assigned_at viewport objects j w object ≠ r) →
           THREE.Material.side (materials (heap w') r)
           = THREE.Material.side (materials (heap w) r)
           ∧ THREE.Material.transparent (materials (heap w') r)
             = THREE.Material.transparent (materials (heap w) r)
           ∧ THREE.Material.opacity (materials (heap w') r)
             = THREE.Material.opacity (materials (heap w) r).
Proof.
  intros Hlive.
  destruct (render_frame w viewer objects sc viewport target Hlive)
    as (w' & log & Hrender & _ & _ & Hheap & _).
  destruct Hlive as (Hv & _).
  exists w', log. split; [done|].
  intros r Hother. rewrite Hheap.
  rewrite (materials_kept w viewer objects viewport r 0 Hv (length objects));
    [by rewrite heap_at_0|lia|done|].
  intros j object _ _. apply Hother.
Qed.

(** X10. Materials are shared and the last writer wins: when no later
    object of the list is assigned the material object that
    [this._objects[j]] was assigned, that material reaches the draw call
    with the side, transparency and opacity of [this._objects[j]]. *)
Theorem render_material_has_last_assignee_attributes (w : World) (viewer : Viewer.t)
    (objects : list Object3D.t) (sc : SceneRef)
    (viewport : Viewport.t) (target : RenderTarget) :
  nonempty_orchestrator w viewer objects sc →
  ∃ w' log,
    render viewport target w = Returns tt w' log
    ∧ ∀ j object, objects !! j = Some object →
        (∀ k object', j < k → objects !! k = Some object' →
           assigned_at viewport objects k w object'
           ≠ assigned_at viewport objects j w object) →
        let final := materials (heap w') (assigned_at viewport objects j w object) in
        THREE.Material.side final = HotspotMaterial.threeSide (Object3D.material object)
        ∧ THREE.Material.transparent final
          = HotspotMaterial.transparent (Object3D.material object)
        ∧ THREE.Material.opacity final
          = HotspotMaterial.opacity (Object3D.material object).
Proof.
  intros Hlive.
  destruct (render_frame w viewer objects sc viewport target Hlive)
    as (w' & log & Hrender & _ & _ & Hheap & _).
  destruct Hlive as (Hv & _).
  exists w', log. split; [done|].
  intros j object Hj Hlast final. pose proof (lookup_lt_Some _ _ _ Hj) as Hlt.
  assert (Hfinal : final = mesh_material
            (reconciled viewer (this w) viewport object (heap_at viewport objects j w))
            (Object3D.mesh object)).
  { unfold final. rewrite Hheap.
    rewrite (materials_kept w viewer objects viewport _ (S j) Hv (length objects));
      [|lia|done|intros k object' ? _; apply Hlast; lia].
    unfold assigned_at, mesh_material. by rewrite (heap_at_S viewer _ _ _ object). }
  unfold reconciled in Hfinal. rewrite refreshed_assigned in Hfinal.
  by rewrite Hfinal.
Qed.

(** ** The compilation test reads the materials found on entry *)

Lemma mesh_untouched_before w viewer objects viewport (m : MeshRef) :
  _viewer (this w) = Some viewer →
  ∀ k, k ≤ length objects →
    (∀ j object, j < k → objects !! j = Some object → Object3D.mesh object ≠ m) →
    meshes (heap_at viewport objects k w) m = meshes (heap w) m.
Proof.
  intros Hv. induction k as [|k IH]; intros Hk Hother; [by rewrite heap_at_0|].
  destruct (lookup_lt_is_Some_2 objects k) as [o Ho]; [lia|].
  rewrite (heap_at_S viewer _ _ _ o) by done.
  rewrite reconciled_mesh_other.
  - apply IH; [lia|]. intros j object ?. apply Hother. lia.
  - intros ->. by apply (Hother k o); [lia|..].
Qed.


Lemma heap_at_program w viewer objects viewport (r : MatRef) :
  _viewer (this w) = Some viewer →
  ∀ k, k ≤ length objects →
    THREE.Material.program (materials (heap_at viewport objects k w) r)
    = THREE.Material.program (materials (heap w) r).
Proof.
  intros Hv.
  apply (heap_at_ind w viewer objects viewport
           (fun h => THREE.Material.program (materials h r)
                     = THREE.Material.program (materials (heap w) r))); [done..|].
  intros j o h _ _ IH. rewrite reconciled_materials. by case_decide.
Qed.

(** X11. With pairwise distinct meshes, whether [render] calls [compile]
    is decided by the world on entry alone: it does so if and only if the
    material some object's mesh has when [render] starts has no program.
    The material a mesh receives in this very call plays no part. *)
Theorem render_compile_reads_entry_materials (w : World) (viewer : Viewer.t)
    (objects : list Object3D.t) (sc : SceneRef)
    (viewport : Viewport.t) (target : RenderTarget) :
  nonempty_orchestrator w viewer objects sc →
  NoDup (Object3D.mesh <$> objects) →
  ∃ w' log,
    render viewport target w = Returns tt w' log
    ∧ (WebGLCompile sc (Viewport.camera_main viewport) ∈ log ↔
       ∃ object, object ∈ objects ∧
         THREE.Material.program (mesh_material (heap w) (Object3D.mesh object)) = None).
Proof.
  intros Hlive Hnd.
  destruct (render_spec w viewer objects sc viewport target Hlive)
    as (c & loop_log & Hrender & Hc & Hlog).
  destruct Hlive as (Hv & _).
  eexists _, _. split; [exact Hrender|].
  assert (Hentry : ∀ j object, objects !! j = Some object →
            THREE.Material.program
              (mesh_material (heap_at viewport objects j w) (Object3D.mesh object))
            = THREE.Material.program (mesh_material (heap w) (Object3D.mesh object))).
  { intros j object Hj. pose proof (lookup_lt_Some _ _ _ Hj) as Hlt.
    unfold mesh_material.
    rewrite (mesh_untouched_before w viewer objects viewport _ Hv j); [|lia|].
    - apply (heap_at_program w viewer); [done|lia].
    - intros i o Hi Ho Heq. assert (i = j); [|lia].
      apply (NoDup_lookup (Object3D.mesh <$> objects) i j (Object3D.mesh object) Hnd).
      + rewrite list_lookup_fmap, Ho. cbn. congruence.
      + by rewrite list_lookup_fmap, Hj. }
  assert (Hflag : c = true ↔ ∃ object, object ∈ objects ∧
            THREE.Material.program (mesh_material (heap w) (Object3D.mesh object)) = None).
  { rewrite Hc. split.
    - intros (j & object & Hj & Hp). exists object.
      split; [by eapply list_elem_of_lookup_2|]. by rewrite <- (Hentry j).
    - intros (object & (j & Hj)%list_elem_of_lookup & Hp). exists j, object.
      split; [done|]. by rewrite (Hentry j). }
  rewrite <- Hflag. rewrite !elem_of_app, elem_of_cons. split.
  - intros [Hin|[Hin|[[=]|Hin]]].
    + apply Hlog in Hin as (j & o & _ & He).
      apply reconcile_calls_elem in He as [[_ [=]]|[=]].
    + by destruct c; [|apply elem_of_nil in Hin].
    + by destruct (_ && _); [apply list_elem_of_singleton in Hin|apply elem_of_nil in Hin].
  - intros ->. right. left. by left.
Qed.

(** ** The order of the calls of one frame *)

Lemma reconcile_calls_indices r viewport j object h h' :
  omap update_index (reconcile_calls r viewport j object h h') = [j]
  ∧ omap replace_index (reconcile_calls r viewport j object h h')
    = (if renew_needed r viewport h object then [j] else []).
Proof. unfold reconcile_calls. by destruct (renew_needed r viewport h object). Qed.

Lemma render_loop_order viewer viewport w :
  _viewer (this w) = Some viewer →
  ∀ objects, ∃ c h' log,
    for_objects (render_object viewport) 0 objects false w
    = Returns c (mkWorld (this w) h') log
    ∧ omap update_index log = seq 0 (length objects)
    ∧ omap replace_index log `sublist_of` seq 0 (length objects)
    ∧ ((∀ h object, renew_needed (this w) viewport h object = true) →
       omap replace_index log = seq 0 (length objects))
    ∧ ∀ e, e ∈ log → is_Some (update_index e) ∨ is_Some (replace_index e).
Proof.
  intros Hv objects. induction objects as [|o l IH] using rev_ind.
  - exists false, (heap w), []. split; [simpl; run; by rewrite world_eta|].
    repeat split; try done. by intros e ?%elem_of_nil.
  - destruct IH as (c & h' & log & Hrun & Hupd & Hsub & Hall & Hkind).
    eexists _, _, _. split.
    { rewrite (for_objects_snoc _ _ _ _ _ _ _ _ Hrun).
      rewrite (render_object_returns viewer) by done. reflexivity. }
    cbn [this heap]. rewrite length_app, Nat.add_1_r, seq_S, !omap_app.
    destruct (reconcile_calls_indices (this w) viewport (length l) o h'
                (reconciled viewer (this w) viewport o h')) as [-> ->].
    split; [by rewrite Hupd|]. split; [|split].
    + apply sublist_app; [done|].
      destruct (renew_needed _ _ _ _); [reflexivity|apply sublist_nil_l].
    + intros Hevery. by rewrite (Hall Hevery), Hevery.
    + intros e [Hin|Hin]%elem_of_app; [by apply Hkind|].
      apply reconcile_calls_elem in Hin as [[_ He]|He]; subst e;
        [right|left]; by eexists.
Qed.

Lemma render_unfold w viewer objects sc viewport target c h' loop_log :
  nonempty_orchestrator w viewer objects sc →
  for_objects (render_object viewport) 0 objects false w
  = Returns c (mkWorld (this w) h') loop_log →
  render viewport target w =
    Returns tt
      (mkWorld
         (set_lastViewType (View.type (Viewport.view_current viewport))
            (set_lastViewport (Some viewport) (this w)))
         h')
      (loop_log
         ++ (if c then [WebGLCompile sc (Viewport.camera_main viewport)] else [])
         ++ WebGLRender sc (Viewport.camera_main viewport) target
            :: (if is_same_viewport (Viewer.activeViewport viewer) viewport
                   && bool_decide (0 < length (filter is_pickable objects))
                then [PickingRender viewport] else [])).
Proof.
  intros (Hv & Ho & [p Hp] & Hs & children & Hch & Hne) Hrun.
  unfold render, _getPickableObjects. run.
  rewrite Hs, Hch. destruct (decide (length children = 0)) as [H0|_].
  { by destruct children. }
  rewrite Ho, Hrun. cbn [this heap]. rewrite Hv.
  destruct c; cbn [this heap]; rewrite Ho; cbn [this heap];
    (destruct (is_same_viewport _ _ && _); [rewrite Hp|]);
    cbn [this heap app]; rewrite ?app_nil_r; reflexivity.
Qed.

Lemma render_order w viewer objects sc viewport target :
  nonempty_orchestrator w viewer objects sc →
  ∃ w' loop_log tail,
    render viewport target w
    = Returns tt w' (loop_log ++ tail ++ [WebGLRender sc (Viewport.camera_main viewport) target]
                     ++ (if is_same_viewport (Viewer.activeViewport viewer) viewport
                            && bool_decide (0 < length (filter is_pickable objects))
                         then [PickingRender viewport] else []))
    ∧ (tail = [] ∨ tail = [WebGLCompile sc (Viewport.camera_main viewport)])
    ∧ omap update_index loop_log = seq 0 (length objects)
    ∧ omap replace_index loop_log `sublist_of` seq 0 (length objects)
    ∧ ((∀ h object, renew_needed (this w) viewport h object = true) →
       omap replace_index loop_log = seq 0 (length objects))
    ∧ ∀ e, e ∈ loop_log → is_Some (update_index e) ∨ is_Some (replace_index e).
Proof.
  intros Hlive. pose proof Hlive as (Hv & _).
  destruct (render_loop_order viewer viewport w Hv objects)
    as (c & h' & log & Hrun & Hupd & Hsub & Hall & Hkind).
  eexists _, log, (if c then [WebGLCompile sc (Viewport.camera_main viewport)] else []).
  split; [by apply (render_unfold w viewer objects sc viewport target c h' log)|].
  split; [destruct c; eauto|done].
Qed.

(** X9. The calls of one [render] on a non-empty instance come in a fixed
    order: first the calls of the loop, which are [updateUniforms] exactly
    once per object in the order of the list and [getMaterialForView] at most
    once per object in that order too; then at most one [compile]; then
    exactly one draw call; and after it nothing but the picking pass. *)
Theorem render_call_order (w : World) (viewer : Viewer.t)
    (objects : list Object3D.t) (sc : SceneRef)
    (viewport : Viewport.t) (target : RenderTarget) :
  nonempty_orchestrator w viewer objects sc →
  let camera := Viewport.camera_main viewport in
  ∃ w' loop_calls compile_call picking_call,
    render viewport target w
    = Returns tt w'
        (loop_calls ++ compile_call ++ [WebGLRender sc camera target] ++ picking_call)
    ∧ omap update_index loop_calls = seq 0 (length objects)
    ∧ omap replace_index loop_calls `sublist_of` seq 0 (length objects)
    ∧ (∀ e, e ∈ loop_calls → is_Some (update_index e) ∨ is_Some (replace_index e))
    ∧ (compile_call = [] ∨ compile_call = [WebGLCompile sc camera])
    ∧ (picking_call = [] ∨ picking_call = [PickingRender viewport]).
Proof.
  intros Hlive camera.
  destruct (render_order w viewer objects sc viewport target Hlive)
    as (w' & loop_log & tail & Hrender & Htail & Hupd & Hsub & _ & Hkind).
  eexists w', loop_log, tail, _. split; [exact Hrender|].
  repeat (split; [done|]). destruct (_ && _); eauto.
Qed.

(** ** Frames after a change of viewport or view *)

Lemma viewport_changed_renews r viewport h object :
  viewport_changed r viewport → renew_needed r viewport h object = true.
Proof.
  intros Hchanged. apply renew_needed_gate. unfold gate.
  destruct Hchanged as [?|[?|[?|?]]]; eauto.
Qed.

Lemma changed_render w viewer objects sc viewport target :
  nonempty_orchestrator w viewer objects sc →
  viewport_changed (this w) viewport →
  ∃ w' log,
    render viewport target w = Returns tt w' log
    ∧ omap replace_index log = seq 0 (length objects)
    ∧ WebGLRender sc (Viewport.camera_main viewport) target ∈ log
    ∧ ∀ j object, objects !! j = Some object →
        assigned_at viewport objects j w object
        = Viewer.getMaterialForView viewer (View.type (Viewport.view_current viewport))
            (shaderType_of (Object3D.material object))
            (HotspotMaterial.transparent (Object3D.material object))
        ∧ THREE.Mesh.frustumCulled
            (meshes (heap_at viewport objects (S j) w) (Object3D.mesh object))
          = bool_decide (View.type (Viewport.view_current viewport) = RECTILINEAR).
Proof.
  intros Hlive Hchanged.
  destruct (render_order w viewer objects sc viewport target Hlive)
    as (w' & loop_log & tail & Hrender & Htail & _ & _ & Hall & _).
  destruct Hlive as (Hv & _).
  eexists w', _. split; [exact Hrender|]. split; [|split].
  - rewrite !omap_app, Hall by (intros; by apply viewport_changed_renews).
    by destruct Htail as [-> | ->], (_ && _); rewrite ?app_nil_r.
  - rewrite !elem_of_app, list_elem_of_singleton. eauto.
  - intros j object Hj. unfold assigned_at.
    rewrite (heap_at_S viewer _ _ _ object) by done.
    by rewrite reconciled_mesh_renewed by (by apply viewport_changed_renews).
Qed.


(** X2. After a [render] on a non-empty instance the viewport and its view
    type are what is recorded, and the next [render], for a viewport [next],
    finds the viewport or view changed exactly when [next] has another uid,
    or another view type, or the view type just recorded is [UNDEFINED]. *)
Theorem render_records_viewport_and_view (w : World) (viewer : Viewer.t)
    (objects : list Object3D.t) (sc : SceneRef)
    (viewport : Viewport.t) (target : RenderTarget) :
  nonempty_orchestrator w viewer objects sc →
  ∃ w' log,
    render viewport target w = Returns tt w' log
    ∧ _lastViewport (this w') = Some viewport
    ∧ _lastViewType (this w') = View.type (Viewport.view_current viewport)
    ∧ ∀ next,
        viewport_changed (this w') next ↔
          Viewport.uid viewport ≠ Viewport.uid next
          ∨ View.type (Viewport.view_current viewport) = UNDEFINED
          ∨ View.type (Viewport.view_current viewport)
            ≠ View.type (Viewport.view_current next).
Proof.
  intros Hlive.
  destruct (render_frame w viewer objects sc viewport target Hlive)
    as (w' & log & Hrender & _ & Hthis & _).
  exists w', log. split; [done|]. rewrite Hthis. cbn. split; [done|]. split; [done|].
  intros next. unfold viewport_changed. cbn. split.
  - intros [[=]|[(last & [= <-] & Huid)|[Hu|Ht]]]; eauto.
  - intros [Huid|[Hu|Ht]]; eauto 10.
Qed.

(** X12. A frame on a settled instance writes no mesh at all (no material
    reference, no culling flag) and changes the transparency of no
    material: it only rewrites sides and opacities. *)
Theorem settled_render_writes_no_mesh (w : World) (viewer : Viewer.t)
    (objects : list Object3D.t) (sc : SceneRef)
    (viewport : Viewport.t) (target : RenderTarget) :
  nonempty_orchestrator w viewer objects sc →
  settled w objects viewport →
  ∃ w' log,
    render viewport target w = Returns tt w' log
    ∧ omap replace_index log = []
    ∧ meshes (heap w') = meshes (heap w)
    ∧ ∀ r, THREE.Material.transparent (materials (heap w') r)
           = THREE.Material.transparent (materials (heap w) r).
Proof.
  intros Hlive Hsettled.
  destruct (render_frame w viewer objects sc viewport target Hlive)
    as (w' & log & Hrender & _ & _ & Hheap & _).
  destruct (render_replacements w viewer objects sc viewport target Hlive)
    as (log' & Hrender' & Hlog).
  assert (log' = log) as -> by congruence.
  destruct Hlive as (Hv & _).
  destruct (settled_loop w viewer objects viewport Hv Hsettled (length objects))
    as (Hmeshes & Hmats & Hnone); [done|].
  exists w', log. split; [done|]. rewrite Hheap. split; [|done].
  destruct (omap replace_index log) as [|j js] eqn:Hom; [done|]. exfalso.
  assert (Hin : j ∈ omap replace_index log) by (rewrite Hom; left).
  apply list_elem_of_omap in Hin as (e & Hin & He).
  destruct e; simplify_eq/=.
  apply Hlog in Hin as (object & Hj & Hr & _).
  rewrite Hnone in Hr; [done| |done]. by eapply lookup_lt_Some.
Qed.

(** ** The guard of [render] tests the scene, not the list *)

(** X15. [render] looks at the children of the scene before anything else:
    when the scene has no child it returns at once, with no call and no
    change, whatever the object list holds and whatever the other fields
    are.  Objects that reach the list after [_boot] are therefore never
    rendered. *)
Theorem render_empty_scene_ignores_list (w : World) (sc : SceneRef)
    (viewport : Viewport.t) (target : RenderTarget) :
  _scene (this w) = Some sc →
  THREE.Scene.children (scenes (heap w) sc) = Some [] →
  render viewport target w = Returns tt w [].
Proof. intros Hs Hch. unfold render. run. by rewrite Hs, Hch. Qed.


(** ** After [destroy] *)

(** X1. Once a live instance is destroyed, [render] throws at
    [this._scene] and the two pickable queries throw at [this._objects],
    each before any call and without changing anything, while [all] and
    [scene] return [null]; the meshes and materials are left as they were
    and the recorded view type is not reset. *)
Theorem destroyed_instance_throws (w : World) (viewer : Viewer.t)
    (objects : list Object3D.t) (sc : SceneRef) (picking : Picking.t)
    (viewport : Viewport.t) (target : RenderTarget) (id : Z) :
  _viewer (this w) = Some viewer →
  _objects (this w) = Some objects →
  _scene (this w) = Some sc →
  _picking (this w) = Some picking →
  ∃ w',
    destroy w = Returns tt w' [PickingDestroy; BaseObjectDestroy]
    ∧ render viewport target w' = Throws (TypeError "this._scene") w' []
    ∧ _getPickableObjects w' = Throws (TypeError "this._objects") w' []
    ∧ getPickableObjectWithId id w' = Throws (TypeError "this._objects") w' []
    ∧ all w' = Returns None w' []
    ∧ scene w' = Returns None w' []
    ∧ meshes (heap w') = meshes (heap w)
    ∧ materials (heap w') = materials (heap w)
    ∧ _lastViewType (this w') = _lastViewType (this w).
Proof.
  intros Hv Ho Hs Hp. destruct w as [[v s o lv lt p] h]. simpl in *. subst.
  eexists. split; [reflexivity|]. done.
Qed.

(** X14. [destroy] returns if and only if [this._scene] is not [null], and
    it calls the picking manager's [destroy] if and only if [this._picking]
    is not [null].  When it throws, at [this._scene], the instance is left
    half torn down: the picking manager and the object list are already
    [null], the viewer and the recorded viewport are still there. *)
Theorem destroy_returns_iff_scene (w : World) :
  (PickingDestroy ∈ log_of (destroy w) ↔ is_Some (_picking (this w)))
  ∧ ((∃ w' log, destroy w = Returns tt w' log) ↔ is_Some (_scene (this w)))
  ∧ (_scene (this w) = None →
     ∃ w' log,
       destroy w = Throws (TypeError "this._scene") w' log
       ∧ _picking (this w') = None
       ∧ _objects (this w') = None
       ∧ _viewer (this w') = _viewer (this w)
       ∧ _lastViewport (this w') = _lastViewport (this w)
       ∧ heap w' = heap w).
Proof.
  destruct w as [[v s o lv lt p] h]. cbn [this heap _picking _scene].
  destruct p as [p|], s as [s|].
  - assert (Hd : destroy (mkWorld (mk v (Some s) o lv lt (Some p)) h)
                 = Returns tt
                     (mkWorld (mk None None None None lt None)
                        (update_scene s (fun _ => THREE.Scene.mk None) h))
                     [PickingDestroy; BaseObjectDestroy]) by reflexivity.
    rewrite Hd. cbn [log_of]. split; [|split].
    + split; [by eexists|]. intros _. left.
    + split; [by eexists|]. intros _. by eexists _, _.
    + done.
  - assert (Hd : destroy (mkWorld (mk v None o lv lt (Some p)) h)
                 = Throws (TypeError "this._scene")
                     (mkWorld (mk v None None lv lt None) h)
                     [PickingDestroy]) by reflexivity.
    rewrite Hd. cbn [log_of]. split; [|split].
    + split; [by eexists|]. intros _. left.
    + split; [by intros (? & ? & [=])|by intros []%is_Some_None].
    + intros _. by eexists _, _.
  - assert (Hd : destroy (mkWorld (mk v (Some s) o lv lt None) h)
                 = Returns tt
                     (mkWorld (mk None None None None lt None)
                        (update_scene s (fun _ => THREE.Scene.mk None) h))
                     [BaseObjectDestroy]) by reflexivity.
    rewrite Hd. cbn [log_of]. split; [|split].
    + split; [|by intros []%is_Some_None].
      by intros [=]%list_elem_of_singleton.
    + split; [by eexists|]. intros _. by eexists _, _.
    + done.
  - assert (Hd : destroy (mkWorld (mk v None o lv lt None) h)
                 = Throws (TypeError "this._scene")
                     (mkWorld (mk v None None lv lt None) h) []) by reflexivity.
    rewrite Hd. cbn [log_of]. split; [|split].
    + split; [by intros ?%elem_of_nil|by intros []%is_Some_None].
    + split; [by intros (? & ? & [=])|by intros []%is_Some_None].
    + intros _. by eexists _, _.
Qed.

(** ** The constructor, without assumptions on the list *)

(** X6. When every mesh of the list that has a parent has one whose
    [children] is not [null], the constructor returns, with one call (the
    picking manager is built), the viewer, the list and a fresh scene in
    place, no viewport recorded and view type [UNDEFINED].  The mesh of
    every object of the list carries the colour of its id, also when meshes
    are shared or ids collide, and has the new scene as parent.  The id,
    culling flag and material of every mesh, the meshes outside the list
    and every material are as before, and so is every scene that is neither
    the new one nor the parent of a mesh of the list. *)
Theorem constructor_colors_every_mesh (colorFromObjectID : Z → Z)
    (viewer : Viewer.t) (objects : list Object3D.t) (h : Heap) :
  parents_alive h (next_scene h) objects →
  ∃ w,
    new_ObjectRenderer colorFromObjectID viewer objects h = Returns tt w [NewPicking]
    ∧ this w = mk (Some viewer) (Some (next_scene h)) (Some objects) None UNDEFINED
                  (Some (Picking.mk (Some viewer)))
    ∧ (∀ o, o ∈ objects →
         THREE.Mesh.pickingColor (meshes (heap w) (Object3D.mesh o))
         = Some (colorFromObjectID (mesh_id h (Object3D.mesh o)))
         ∧ THREE.Mesh.parent (meshes (heap w) (Object3D.mesh o)) = Some (next_scene h))
    ∧ (∀ m, THREE.Mesh.id (meshes (heap w) m) = THREE.Mesh.id (meshes h m)
            ∧ THREE.Mesh.frustumCulled (meshes (heap w) m)
              = THREE.Mesh.frustumCulled (meshes h m)
            ∧ THREE.Mesh.material (meshes (heap w) m) = THREE.Mesh.material (meshes h m))
    ∧ (∀ m, (∀ o, o ∈ objects → Object3D.mesh o ≠ m) → meshes (heap w) m = meshes h m)
    ∧ materials (heap w) = materials h
    ∧ (∀ s, s ≠ next_scene h →
         (∀ o, o ∈ objects → THREE.Mesh.parent (meshes h (Object3D.mesh o)) ≠ Some s) →
         scenes (heap w) s = scenes h s).
Proof.
  intros Halive.
  pose proof (new_ObjectRenderer_spec colorFromObjectID viewer objects h) as Hspec.
  pose proof (new_ObjectRenderer_scenes colorFromObjectID viewer objects h) as Hscenes.
  destruct (new_ObjectRenderer colorFromObjectID viewer objects h)
    as [[] w log|e w log].
  - destruct Hspec as (-> & Hthis & _ & Hcol & Hfields & Hout & Hmats & _).
    exists w. repeat (split; [done|]). intros s Hs Hp. by apply Hscenes.
  - by destruct Hspec as (_ & _ & _ & Hdead).
Qed.

(** X18. The constructor returns exactly when every mesh of the list that
    has a parent has one whose [children] is not [null]; otherwise it throws
    a [TypeError] in [scene.add], with no call issued and before the picking
    manager is built. *)
Theorem constructor_returns_iff_parents_alive (colorFromObjectID : Z → Z)
    (viewer : Viewer.t) (objects : list Object3D.t) (h : Heap) :
  ((∃ w, new_ObjectRenderer colorFromObjectID viewer objects h
         = Returns tt w [NewPicking])
   ↔ parents_alive h (next_scene h) objects)
  ∧ ((∃ w, new_ObjectRenderer colorFromObjectID viewer objects h
           = Throws (TypeError "this.children") w []
           ∧ _picking (this w) = None)
     ↔ ¬ parents_alive h (next_scene h) objects).
Proof.
  pose proof (new_ObjectRenderer_spec colorFromObjectID viewer objects h) as Hspec.
  destruct (new_ObjectRenderer colorFromObjectID viewer objects h)
    as [[] w log|e w log].
  - destruct Hspec as (-> & _ & _ & _ & _ & _ & _ & _ & Halive & _).
    split; (split; [|intros ?]); try done; [by eexists|by intros (? & [=] & _)].
  - destruct Hspec as (-> & -> & Hthis & Hdead).
    split; (split; [|intros ?]); try done; [by intros (? & [=])|].
    exists w. by rewrite Hthis.
Qed.

(** X7. Under the same condition an instance constructed on a non-empty
    list, whatever its meshes, is a non-empty instance, and its first
    [render] replaces the material of every object, once each in the order
    of the list, and draws. *)
Theorem constructed_first_frame_renews_all (colorFromObjectID : Z → Z)
    (viewer : Viewer.t) (objects : list Object3D.t) (h : Heap)
    (viewport : Viewport.t) (target : RenderTarget) :
  parents_alive h (next_scene h) objects →
  objects ≠ [] →
  ∃ w w' log,
    new_ObjectRenderer colorFromObjectID viewer objects h = Returns tt w [NewPicking]
    ∧ nonempty_orchestrator w viewer objects (next_scene h)
    ∧ render viewport target w = Returns tt w' log
    ∧ omap replace_index log = seq 0 (length objects)
    ∧ WebGLRender (next_scene h) (Viewport.camera_main viewport) target ∈ log.
Proof.
  intros Halive Hne.
  pose proof (new_ObjectRenderer_spec colorFromObjectID viewer objects h) as Hspec.
  destruct (new_ObjectRenderer colorFromObjectID viewer objects h)
    as [[] w log0|e w log0]; [|by destruct Hspec as (_ & _ & _ & Hdead)].
  destruct Hspec as (-> & Hthis & (c' & Hc' & Hc'ne & _) & _).
  assert (Hlive : nonempty_orchestrator w viewer objects (next_scene h)).
  { unfold nonempty_orchestrator. rewrite Hthis. cbn.
    repeat split; [by eexists|]. exists c'. split; [done|]. by apply Hc'ne. }
  destruct (changed_render w viewer objects (next_scene h) viewport target Hlive)
    as (w' & log' & Hrender & Hall & Hdraw & _).
  { left. by rewrite Hthis. }
  by exists w, w', log'.
Qed.

(** ** Meshes that already have a parent *)

(** X17. [destroy] sets the scene's [children] to [null] and leaves the
    meshes with that scene as parent: after an instance built on a
    non-empty list is destroyed, the constructor called again on the same
    list throws a [TypeError] in [scene.add], on the first mesh, before the
    picking manager is built. *)
Theorem rebuilt_on_destroyed_meshes_throws (colorFromObjectID colorFromObjectID' : Z → Z)
    (viewer viewer' : Viewer.t) (objects : list Object3D.t) (h : Heap) (w : World)
    (log : list Call) :
  new_ObjectRenderer colorFromObjectID viewer objects h = Returns tt w log →
  objects ≠ [] →
  ∃ w',
    destroy w = Returns tt w' [PickingDestroy; BaseObjectDestroy]
    ∧ ∃ w'',
        new_ObjectRenderer colorFromObjectID' viewer' objects (heap w')
        = Throws (TypeError "this.children") w'' []
        ∧ _picking (this w'') = None.
Proof.
  intros Hnew Hne.
  pose proof (new_ObjectRenderer_spec colorFromObjectID viewer objects h) as Hspec.
  rewrite Hnew in Hspec.
  destruct Hspec as (-> & Hthis & _ & Hcol & _ & _ & _ & _ & _ & Hnext).
  destruct w as [r hw]. cbn [this heap] in *. subst r.
  eexists. split; [reflexivity|]. cbn [heap].
  pose proof (new_ObjectRenderer_spec colorFromObjectID' viewer' objects
                (update_scene (next_scene h) (fun _ => THREE.Scene.mk None) hw)) as Hspec.
  destruct (new_ObjectRenderer colorFromObjectID' viewer' objects _)
    as [[] w2 log2|e w2 log2].
  - exfalso. destruct Hspec as (_ & _ & _ & _ & _ & _ & _ & _ & Halive & _).
    destruct objects as [|o objects]; [done|].
    destruct (Hcol o) as [_ Hparent]; [left|].
    destruct (Halive o (next_scene h)) as [c Hc].
    + left.
    + exact Hparent.
    + cbn. rewrite Hnext. lia.
    + cbn in Hc. unfold upd in Hc. by rewrite decide_True in Hc.
  - destruct Hspec as (-> & -> & Hthis2 & _). eexists. split; [done|]. by rewrite Hthis2.
Qed.

Lemma boot_object_moves colorFromObjectID i o w sc (p : SceneRef) c cp :
  _scene (this w) = Some sc → p ≠ sc →
  THREE.Scene.children (scenes (heap w) sc) = Some c →
  THREE.Scene.children (scenes (heap w) p) = Some cp →
  THREE.Mesh.parent (meshes (heap w) (Object3D.mesh o)) = Some p →
  ∃ w',
    _boot_object colorFromObjectID i o tt w = Returns tt w' []
    ∧ this w' = this w
    ∧ THREE.Scene.children (scenes (heap w') p)
      = Some (splice_first (Object3D.mesh o) cp)
    ∧ THREE.Scene.children (scenes (heap w') sc) = Some (c ++ [Object3D.mesh o])
    ∧ (∀ m, m ≠ Object3D.mesh o → meshes (heap w') m = meshes (heap w) m).
Proof.
  intros Hs Hne Hc Hcp Hp. rewrite (boot_object_run _ _ _ _ sc) by done.
  rewrite Object3D_add_run. cbn [this heap].
  rewrite meshes_update_mesh, decide_True by done.
  change (THREE.Mesh.parent (THREE.Mesh.set_pickingColor _ ?x))
    with (THREE.Mesh.parent x).
  destruct w as [r h]. cbn [this heap] in *. rewrite Hp.
  rewrite Object3D_remove_run. cbn [this heap].
  change (scenes (update_mesh ?m ?f ?h)) with (scenes h). rewrite Hcp. cbn [this heap].
  destruct (decide (Object3D.mesh o ∈ cp)) as [Hin|Hin].
  - rewrite scenes_update_scene, decide_False by done.
    repeat change (scenes (update_mesh ?m ?f ?h)) with (scenes h). rewrite Hc.
    eexists. split; [reflexivity|]. cbn. unfold upd.
    repeat split; [by repeat case_decide..|].
    intros m Hm. by rewrite !decide_False.
  - repeat change (scenes (update_mesh ?m ?f ?h)) with (scenes h). rewrite Hc.
    eexists. split; [reflexivity|]. cbn. unfold upd.
    rewrite (splice_first_notin _ _ Hin).
    repeat split; [by repeat case_decide..|].
    intros m Hm. by rewrite !decide_False.
Qed.

Lemma boot_loop_moves colorFromObjectID sc (p : SceneRef) objects :
  p ≠ sc →
  ∀ i w c cp,
    _scene (this w) = Some sc →
    THREE.Scene.children (scenes (heap w) sc) = Some c →
    THREE.Scene.children (scenes (heap w) p) = Some cp →
    NoDup (Object3D.mesh <$> objects) →
    (∀ o, o ∈ objects → THREE.Mesh.parent (meshes (heap w) (Object3D.mesh o)) = Some p) →
    ∃ w',
      for_objects (_boot_object colorFromObjectID) i objects tt w = Returns tt w' []
      ∧ THREE.Scene.children (scenes (heap w') p)
        = Some (foldl (fun acc o => splice_first (Object3D.mesh o) acc) cp objects)
      ∧ THREE.Scene.children (scenes (heap w') sc)
        = Some (c ++ (Object3D.mesh <$> objects)).
Proof.
  intros Hne. induction objects as [|o objects IH]; intros i w c cp Hs Hc Hcp Hnd Hp.
  - exists w. simpl. run. by rewrite app_nil_r.
  - apply NoDup_cons in Hnd as [Hhead Hnd].
    destruct (boot_object_moves colorFromObjectID i o w sc p c cp Hs Hne Hc Hcp)
      as (w1 & Hstep & Hthis & Hcp1 & Hc1 & Hother); [apply Hp; left|].
    destruct (IH (S i) w1 (c ++ [Object3D.mesh o]) (splice_first (Object3D.mesh o) cp))
      as (w2 & Hrest & Hcp2 & Hc2); [by rewrite Hthis|done..| |].
    { intros o' Hin. rewrite Hother; [apply Hp; by right|].
      intros Heq. apply Hhead. rewrite <- Heq. apply list_elem_of_fmap. eauto. }
    exists w2. cbn [for_objects]. unfold mbind at 1, M_bind at 1.
    rewrite Hstep, Hrest. split; [done|]. split; [done|].
    by rewrite Hc2, <- app_assoc.
Qed.

Lemma splice_first_all (objects : list Object3D.t) :
  foldl (fun acc o => splice_first (Object3D.mesh o) acc) (Object3D.mesh <$> objects)
    objects = [].
Proof.
  induction objects as [|o objects IH]; [done|].
  cbn. by rewrite decide_True.
Qed.

(** X19. A mesh has one parent: a second instance constructed on the list
    of a first one (pairwise distinct meshes) takes every mesh into its own
    scene.  The scene of the first instance is left without children, and
    the first instance's [render] then returns at once, with no call. *)
Theorem second_instance_takes_the_meshes (colorFromObjectID colorFromObjectID' : Z → Z)
    (viewer viewer' : Viewer.t) (objects : list Object3D.t) (h : Heap) (w : World)
    (log : list Call) (viewport : Viewport.t) (target : RenderTarget) :
  new_ObjectRenderer colorFromObjectID viewer objects h = Returns tt w log →
  NoDup (Object3D.mesh <$> objects) →
  ∃ w2,
    new_ObjectRenderer colorFromObjectID' viewer' objects (heap w)
    = Returns tt w2 [NewPicking]
    ∧ _scene (this w) = Some (next_scene h)
    ∧ _scene (this w2) = Some (S (next_scene h))
    ∧ THREE.Scene.children (scenes (heap w) (next_scene h))
      = Some (Object3D.mesh <$> objects)
    ∧ THREE.Scene.children (scenes (heap w2) (next_scene h)) = Some []
    ∧ THREE.Scene.children (scenes (heap w2) (S (next_scene h)))
      = Some (Object3D.mesh <$> objects)
    ∧ render viewport target (mkWorld (this w) (heap w2))
      = Returns tt (mkWorld (this w) (heap w2)) [].
Proof.
  intros Hnew Hnd.
  pose proof (new_ObjectRenderer_spec colorFromObjectID viewer objects h) as Hspec.
  rewrite Hnew in Hspec.
  destruct Hspec as (-> & Hthis & (c' & Hc' & _ & Heq) & Hcol & _ & _ & _ & _ & _ & Hnext).
  rewrite (Heq Hnd) in Hc'. clear Heq.
  assert (Hold_ne : next_scene h ≠ next_scene (heap w))
    by (rewrite Hnext; apply Nat.neq_succ_diag_r).
  rewrite new_ObjectRenderer_run.
  destruct (boot_loop_moves colorFromObjectID' (next_scene (heap w)) (next_scene h)
              objects Hold_ne 0
              (mkWorld (mk (Some viewer') (Some (next_scene (heap w))) (Some objects) None
                          UNDEFINED None) (snd (new_Scene (heap w))))
              [] (Object3D.mesh <$> objects) eq_refl)
    as (w1 & Hloop & Hold & Hfresh); [| |exact Hnd| |].
  { unfold new_Scene, upd. cbn. by rewrite decide_True. }
  { unfold new_Scene, upd. cbn. by rewrite decide_False. }
  { intros o Hin. cbn. by apply Hcol. }
  rewrite Hloop. eexists. split; [reflexivity|]. cbn [this heap].
  rewrite splice_first_all in Hold. rewrite Hnext in Hfresh.
  pose proof (boot_loop_spec colorFromObjectID' (next_scene (heap w)) objects 0
                (mkWorld (mk (Some viewer') (Some (next_scene (heap w))) (Some objects) None
                            UNDEFINED None) (snd (new_Scene (heap w))))
                [] eq_refl) as Hspec.
  rewrite Hloop in Hspec. destruct Hspec as (_ & Hthis1 & _).
  { unfold new_Scene, upd. cbn. by rewrite decide_True. }
  rewrite Hthis1, Hthis. cbn. rewrite Hnext.
  split; [done|]. split; [done|]. split; [done|]. split; [done|]. split; [done|].
  unfold render. run. cbn. by rewrite Hold.
Qed.

(** ** Several viewports per frame *)

Lemma uid_changes_frames viewer objects sc frames :
  ∀ w, nonempty_orchestrator w viewer objects sc →
    uid_changes (_lastViewport (this w)) frames →
    ∃ w' log,
      render_frames frames w = Returns tt w' log
      ∧ omap replace_index log = mjoin (replicate (length frames) (seq 0 (length objects))).
Proof.
  induction frames as [|[viewport target] frames IH]; intros w Hlive Hchain.
  - by exists w, [].
  - destruct Hchain as [Hfirst Hrest]. cbn [fst] in Hfirst, Hrest.
    assert (Hchanged : viewport_changed (this w) viewport).
    { unfold viewport_changed. destruct (_lastViewport (this w)) as [l|]; eauto. }
    destruct (changed_render w viewer objects sc viewport target Hlive Hchanged)
      as (w1 & log1 & Hrender & Hall & _).
    destruct (render_frame w viewer objects sc viewport target Hlive)
      as (w1' & log1' & Hrender' & Hlive1 & Hthis & _).
    assert (w1' = w1) as -> by congruence.
    destruct (IH w1 Hlive1) as (w2 & log2 & Hframes & Hall2).
    { by rewrite Hthis. }
    exists w2, (log1 ++ log2). split.
    + cbn [render_frames fst snd]. unfold mbind, M_bind. by rewrite Hrender, Hframes.
    + by rewrite omap_app, Hall, Hall2.
Qed.

(** X13. The cache holds one viewport: when frames are rendered for
    viewports whose uid changes from each frame to the next (two viewports
    rendered in turn), every frame replaces the material of every object,
    so the log holds one run of replacements per frame. *)
Theorem frames_with_changing_viewport_renew_all (w : World) (viewer : Viewer.t)
    (objects : list Object3D.t) (sc : SceneRef)
    (frames : list (Viewport.t * RenderTarget)) :
  nonempty_orchestrator w viewer objects sc →
  uid_changes (_lastViewport (this w)) frames →
  ∃ w' log,
    render_frames frames w = Returns tt w' log
    ∧ omap replace_index log = mjoin (replicate (length frames) (seq 0 (length objects)))
    ∧ length (omap replace_index log) = length frames * length objects.
Proof.
  intros Hlive Hchain.
  destruct (uid_changes_frames viewer objects sc frames w Hlive Hchain)
    as (w' & log & Hframes & Hall).
  exists w', log. split; [done|]. split; [done|]. rewrite Hall.
  assert (Hlen : ∀ (l : list nat) n, length (mjoin (replicate n l)) = n * length l).
  { intros l n. induction n as [|n IH]; [done|].
    change (mjoin (replicate (S n) l)) with (l ++ mjoin (replicate n l)).
    rewrite length_app, IH. lia. }
  by rewrite Hlen, length_seq.
Qed.

(** * The further properties on the sample scene *)


Lemma rendered_world_settled :
  settled (rendered_world RECTILINEAR) sample_objects (sample_viewport RECTILINEAR).
Proof.
  split; [by eexists|]. split; [reflexivity|]. split; [discriminate|].
  apply rendered_world_agrees.
Qed.

Lemma sample_meshes_distinct : NoDup (Object3D.mesh <$> sample_objects).
Proof. apply (bool_decide_unpack _). by vm_compute. Qed.

(** Three frames in three views keep the picking colour of mesh 1. *)
Lemma frames_keep_ids_colors_and_scenes_witness :
  nonempty_orchestrator sample_world sample_viewer sample_objects 0
  ∧ ∃ w' log,
      render_frames [(sample_viewport RECTILINEAR, 0); (second_viewport UNDEFINED, 1);
                     (sample_viewport (OtherProjection "flat"), 0)] sample_world
      = Returns tt w' log
      ∧ THREE.Mesh.pickingColor (meshes (heap w') 1) = Some 3%Z.
Proof.
  split; [apply sample_world_nonempty|].
  destruct (frames_keep_ids_colors_and_scenes sample_world sample_viewer sample_objects 0
              [(sample_viewport RECTILINEAR, 0); (second_viewport UNDEFINED, 1);
               (sample_viewport (OtherProjection "flat"), 0)] sample_world_nonempty)
    as (w' & log & Hframes & _ & Hid & _).
  exists w', log. split; [exact Hframes|]. by rewrite (proj2 (Hid 1)).
Defined.

Lemma frames_keep_queries_witness :
  nonempty_orchestrator sample_world sample_viewer sample_objects 0
  ∧ ∃ w' log,
      render_frames [(sample_viewport RECTILINEAR, 0); (second_viewport RECTILINEAR, 1)]
        sample_world = Returns tt w' log
      ∧ all w' = Returns (Some sample_objects) w' [].
Proof.
  split; [apply sample_world_nonempty|].
  destruct (frames_keep_queries sample_world sample_viewer sample_objects 0
              [(sample_viewport RECTILINEAR, 0); (second_viewport RECTILINEAR, 1)]
              sample_world_nonempty)
    as (w' & log & Hframes & _ & Hall & _).
  exists w', log. split; [exact Hframes|exact Hall].
Defined.

(** Material 1, the one mesh 1 starts with, is assigned to no mesh once the
    first frame has replaced it: its opacity is left as it was. *)
Lemma render_writes_only_assigned_materials_witness :
  nonempty_orchestrator sample_world sample_viewer sample_objects 0
  ∧ ∃ w' log,
      render (sample_viewport RECTILINEAR) 0 sample_world = Returns tt w' log
      ∧ THREE.Material.opacity (materials (heap w') 1)
        = THREE.Material.opacity (materials (heap sample_world) 1).
Proof.
  split; [apply sample_world_nonempty|].
  destruct (render_writes_only_assigned_materials sample_world sample_viewer
              sample_objects 0 (sample_viewport RECTILINEAR) 0 sample_world_nonempty)
    as (w' & log & Hrender & Hother).
  exists w', log. split; [exact Hrender|]. apply Hother.
  intros j object Hj. destruct j as [|[|[|j]]]; simplify_eq/=; by vm_compute.
Defined.

(** The second and third hotspots share material 103: at the draw call it
    has the side of the third, the last one assigned to it. *)
Lemma render_material_has_last_assignee_attributes_witness :
  nonempty_orchestrator sample_world sample_viewer sample_objects 0
  ∧ ∃ w' log,
      render (sample_viewport RECTILINEAR) 0 sample_world = Returns tt w' log
      ∧ THREE.Material.side (materials (heap w') 103) = THREE.BackSide.
Proof.
  split; [apply sample_world_nonempty|].
  destruct (render_material_has_last_assignee_attributes sample_world sample_viewer
              sample_objects 0 (sample_viewport RECTILINEAR) 0 sample_world_nonempty)
    as (w' & log & Hrender & Hlast).
  exists w', log. split; [exact Hrender|].
  refine (proj1 (Hlast 2 hotspot_c eq_refl _)).
  intros k object' Hk Hobj. destruct k as [|[|[|k]]]; (lia || discriminate).
Defined.

Lemma render_compile_reads_entry_materials_witness :
  nonempty_orchestrator sample_world sample_viewer sample_objects 0
  ∧ NoDup (Object3D.mesh <$> sample_objects)
  ∧ ∃ w' log,
      render (sample_viewport RECTILINEAR) 0 sample_world = Returns tt w' log
      ∧ WebGLCompile 0 7 ∈ log.
Proof.
  split; [apply sample_world_nonempty|]. split; [apply sample_meshes_distinct|].
  destruct (render_compile_reads_entry_materials sample_world sample_viewer
              sample_objects 0 (sample_viewport RECTILINEAR) 0 sample_world_nonempty
              sample_meshes_distinct)
    as (w' & log & Hrender & Hiff).
  exists w', log. split; [exact Hrender|]. apply Hiff.
  exists hotspot_a. split; [left|reflexivity].
Defined.

Lemma render_call_order_witness :
  nonempty_orchestrator sample_world sample_viewer sample_objects 0
  ∧ ∃ w' log,
      render (sample_viewport RECTILINEAR) 0 sample_world = Returns tt w' log
      ∧ omap update_index log = [0; 1; 2].
Proof.
  split; [apply sample_world_nonempty|].
  destruct (render_call_order sample_world sample_viewer
              sample_objects 0 (sample_viewport RECTILINEAR) 0 sample_world_nonempty)
    as (w' & loop_calls & compile_call & picking_call & Hrender & Hupd & _ & _ & Hc & Hp).
  eexists w', _. split; [exact Hrender|].
  rewrite !omap_app, Hupd.
  by destruct Hc as [-> | ->], Hp as [-> | ->].
Defined.


Lemma render_records_viewport_and_view_witness :
  nonempty_orchestrator sample_world sample_viewer sample_objects 0
  ∧ ∃ w' log,
      render (sample_viewport RECTILINEAR) 0 sample_world = Returns tt w' log
      ∧ ¬ viewport_changed (this w') (sample_viewport RECTILINEAR)
      ∧ viewport_changed (this w') (second_viewport RECTILINEAR).
Proof.
  split; [apply sample_world_nonempty|].
  destruct (render_records_viewport_and_view sample_world sample_viewer
              sample_objects 0 (sample_viewport RECTILINEAR) 0 sample_world_nonempty)
    as (w' & log & Hrender & _ & _ & Hnext).
  exists w', log. split; [exact Hrender|]. split.
  - rewrite Hnext. by intros [?|[?|?]].
  - apply Hnext. by left.
Defined.

Lemma settled_render_writes_no_mesh_witness :
  nonempty_orchestrator (rendered_world RECTILINEAR) sample_viewer sample_objects 0
  ∧ settled (rendered_world RECTILINEAR) sample_objects (sample_viewport RECTILINEAR)
  ∧ ∃ w' log,
      render (sample_viewport RECTILINEAR) 0 (rendered_world RECTILINEAR)
      = Returns tt w' log
      ∧ meshes (heap w') = meshes (heap (rendered_world RECTILINEAR)).
Proof.
  split; [apply rendered_world_nonempty|]. split; [apply rendered_world_settled|].
  destruct (settled_render_writes_no_mesh (rendered_world RECTILINEAR) sample_viewer
              sample_objects 0 (sample_viewport RECTILINEAR) 0
              (rendered_world_nonempty RECTILINEAR) rendered_world_settled)
    as (w' & log & Hrender & _ & Hmeshes & _).
  exists w', log. split; [exact Hrender|exact Hmeshes].
Defined.

(** Three hotspots in the list, none in the scene: nothing is rendered. *)
Lemma render_empty_scene_ignores_list_witness :
  _objects (this late_world) = Some sample_objects
  ∧ render (sample_viewport RECTILINEAR) 0 late_world = Returns tt late_world [].
Proof.
  split; [reflexivity|].
  exact (render_empty_scene_ignores_list late_world 0 (sample_viewport RECTILINEAR) 0
           eq_refl eq_refl).
Defined.


Lemma destroyed_instance_throws_witness :
  render (sample_viewport RECTILINEAR) 0 destroyed_world
  = Throws (TypeError "this._scene") destroyed_world [].
Proof.
  destruct (destroyed_instance_throws sample_world sample_viewer sample_objects 0
              (Picking.mk (Some sample_viewer)) (sample_viewport RECTILINEAR) 0 1%Z
              eq_refl eq_refl eq_refl eq_refl)
    as (w' & Hdestroy & Hrender & _).
  assert (w' = destroyed_world) as -> by (unfold destroyed_world; by rewrite Hdestroy).
  exact Hrender.
Defined.

Lemma constructor_colors_every_mesh_witness :
  parents_alive sample_heap (next_scene sample_heap) sample_objects
  ∧ THREE.Mesh.pickingColor (meshes (heap sample_world) 2) = Some 5%Z
  ∧ THREE.Mesh.parent (meshes (heap sample_world) 2) = Some 0.
Proof.
  assert (Halive : parents_alive sample_heap (next_scene sample_heap) sample_objects)
    by (intros o p _ Hp; discriminate Hp).
  split; [exact Halive|].
  destruct (constructor_colors_every_mesh sample_color sample_viewer sample_objects
              sample_heap Halive)
    as (w & Hnew & _ & Hcol & _).
  assert (w = sample_world) as -> by (unfold sample_world; by rewrite Hnew).
  apply (Hcol hotspot_b). right. by left.
Defined.

Lemma constructed_first_frame_renews_all_witness :
  parents_alive sample_heap (next_scene sample_heap) sample_objects
  ∧ sample_objects ≠ []
  ∧ ∃ w' log,
      render (sample_viewport (OtherProjection "flat")) 0 sample_world
      = Returns tt w' log
      ∧ omap replace_index log = [0; 1; 2].
Proof.
  assert (Halive : parents_alive sample_heap (next_scene sample_heap) sample_objects)
    by (intros o p _ Hp; discriminate Hp).
  split; [exact Halive|]. split; [discriminate|].
  destruct (constructed_first_frame_renews_all sample_color sample_viewer sample_objects
              sample_heap (sample_viewport (OtherProjection "flat")) 0 Halive)
    as (w & w' & log & Hnew & _ & Hrender & Hall & _); [discriminate|].
  assert (w = sample_world) as -> by (unfold sample_world; by rewrite Hnew).
  exists w', log. split; [exact Hrender|exact Hall].
Defined.

Lemma rebuilt_on_destroyed_meshes_throws_witness :
  new_ObjectRenderer sample_color sample_viewer sample_objects sample_heap
  = Returns tt sample_world [NewPicking]
  ∧ sample_objects ≠ []
  ∧ ∃ w'',
      new_ObjectRenderer sample_color sample_viewer sample_objects (heap destroyed_world)
      = Throws (TypeError "this.children") w'' [].
Proof.
  assert (Hnew : new_ObjectRenderer sample_color sample_viewer sample_objects sample_heap
                 = Returns tt sample_world [NewPicking]) by reflexivity.
  split; [exact Hnew|]. split; [discriminate|].
  destruct (rebuilt_on_destroyed_meshes_throws sample_color sample_color sample_viewer
              sample_viewer sample_objects sample_heap sample_world [NewPicking] Hnew)
    as (w' & Hdestroy & w'' & Hrebuilt & _); [discriminate|].
  assert (w' = destroyed_world) as -> by (unfold destroyed_world; by rewrite Hdestroy).
  exists w''. exact Hrebuilt.
Defined.

Lemma second_instance_takes_the_meshes_witness :
  new_ObjectRenderer sample_color sample_viewer sample_objects sample_heap
  = Returns tt sample_world [NewPicking]
  ∧ NoDup (Object3D.mesh <$> sample_objects)
  ∧ ∃ w2,
      new_ObjectRenderer sample_color sample_viewer sample_objects (heap sample_world)
      = Returns tt w2 [NewPicking]
      ∧ THREE.Scene.children (scenes (heap w2) 0) = Some []
      ∧ THREE.Scene.children (scenes (heap w2) 1) = Some [1; 2; 3].
Proof.
  assert (Hnew : new_ObjectRenderer sample_color sample_viewer sample_objects sample_heap
                 = Returns tt sample_world [NewPicking]) by reflexivity.
  assert (Hnd : NoDup (Object3D.mesh <$> sample_objects))
    by (apply (bool_decide_unpack _); by vm_compute).
  split; [exact Hnew|]. split; [exact Hnd|].
  destruct (second_instance_takes_the_meshes sample_color sample_color sample_viewer
              sample_viewer sample_objects sample_heap sample_world [NewPicking]
              (sample_viewport RECTILINEAR) 0 Hnew Hnd)
    as (w2 & Hsecond & _ & _ & _ & Hold & Hfresh & _).
  exists w2. split; [exact Hsecond|]. split; [exact Hold|exact Hfresh].
Defined.

(** Two viewports rendered in turn, twice: twelve replacements. *)
Lemma frames_with_changing_viewport_renew_all_witness :
  nonempty_orchestrator sample_world sample_viewer sample_objects 0
  ∧ ∃ w' log,
      render_frames [(sample_viewport RECTILINEAR, 0); (second_viewport RECTILINEAR, 1);
                     (sample_viewport RECTILINEAR, 0); (second_viewport RECTILINEAR, 1)]
        sample_world = Returns tt w' log
      ∧ length (omap replace_index log) = 12.
Proof.
  split; [apply sample_world_nonempty|].
  destruct (frames_with_changing_viewport_renew_all sample_world sample_viewer
              sample_objects 0
              [(sample_viewport RECTILINEAR, 0); (second_viewport RECTILINEAR, 1);
               (sample_viewport RECTILINEAR, 0); (second_viewport RECTILINEAR, 1)]
              sample_world_nonempty)
    as (w' & log & Hframes & _ & Hlen).
  - cbn. repeat split; discriminate.
  - exists w', log. split; [exact Hframes|exact Hlen].
Defined.
